(** * Hearthfield: tools/strip_target_features.py

    A shallow embedding of the WASM custom-section stripper and the
    properties of its varint reader, its section walk and its output.

    Python values are modelled as follows:
    - [bytes] / [bytearray] objects are [list byte];
    - Python integers are unbounded and here never negative: [N];
    - [str] objects are lists of Unicode code points ([list N]);
    - a raised exception is [Raise e]; nothing in the script catches one,
      so a raised exception ends the run before the output file is opened. *)

From Stdlib.Strings Require Import Byte String.
From Stdlib Require Import List Arith NArith Bool Lia.
Import ListNotations.
Local Open Scope N_scope.

(** ** Results of Python computations *)

Inductive exn : Type :=
| IndexError      (* bytes index out of range *)
| AssertionError. (* failed assert *)

Inductive outcome (A : Type) : Type :=
| Ret (a : A)
| Raise (e : exn)
| OutOfFuel.

Arguments Ret {A} a.
Arguments Raise {A} e.
Arguments OutOfFuel {A}.

Definition bind {A B : Type} (m : outcome A) (k : A -> outcome B) : outcome B :=
  match m with
  | Ret a => k a
  | Raise e => Raise e
  | OutOfFuel => OutOfFuel
  end.

Notation "x <- m ;; k" := (bind m (fun x => k))
  (at level 61, m at next level, right associativity).
Notation "' p <- m ;; k" := (bind m (fun p => k))
  (at level 61, p pattern, m at next level, right associativity).

(** ** Byte strings *)

Definition len (data : list byte) : N := N.of_nat (length data).

(** [data[i]] for an index [i >= 0]: the byte as an integer. *)
Definition index (data : list byte) (i : N) : outcome N :=
  match nth_error data (N.to_nat i) with
  | Some b => Ret (Byte.to_N b)
  | None => Raise IndexError
  end.

(** [data[a:b]] for [a, b >= 0]: slicing clamps to the buffer and never
    raises. *)
Definition slice (data : list byte) (a b : N) : list byte :=
  firstn (N.to_nat (b - a)) (skipn (N.to_nat a) data).

(** ** read_leb128 *)

Fixpoint read_leb128_loop (fuel : nat) (data : list byte)
    (offset result shift i : N) : outcome (N * N) :=
  match fuel with
  | O => OutOfFuel
  | S fuel' =>
      byte <- index data i ;;
      let result := N.lor result (N.shiftl (N.land byte 0x7F) shift) in
      let i := i + 1 in
      if N.land byte 0x80 =? 0 then Ret (result, i - offset)
      else read_leb128_loop fuel' data offset result (shift + 7) i
  end.

(** Every iteration advances [i] and an iteration with [i >= len data]
    raises, so [S (length data)] iterations always suffice
    (see [read_leb128_terminates]). *)
Definition read_leb128 (data : list byte) (offset : N) : outcome (N * N) :=
  read_leb128_loop (S (length data)) data offset 0 0 offset.

(** ** bytes.decode("utf-8", errors="replace")

    The decoder of the Python runtime: well-formed sequences give their
    code point; every maximal ill-formed span is replaced by U+FFFD and
    decoding resumes after it. *)

Definition REPLACEMENT : N := 0xFFFD.

Definition is_continuation (c : N) : bool := (0x80 <=? c) && (c <=? 0xBF).

(** The second byte of a three-byte sequence: E0 excludes overlong forms,
    ED excludes surrogates. *)
Definition second_of_3 (c0 c1 : N) : bool :=
  is_continuation c1 &&
  negb (if c1 <? 0xA0 then c0 =? 0xE0 else c0 =? 0xED).

(** The second byte of a four-byte sequence: F0 excludes overlong forms,
    F4 excludes code points above U+10FFFF. *)
Definition second_of_4 (c0 c1 : N) : bool :=
  is_continuation c1 &&
  negb (if c1 <? 0x90 then c0 =? 0xF0 else c0 =? 0xF4).

Definition cp2 (c0 c1 : N) : N :=
  N.lor (N.shiftl (N.land c0 0x1F) 6) (N.land c1 0x3F).

Definition cp3 (c0 c1 c2 : N) : N :=
  N.lor (N.shiftl (N.land c0 0x0F) 12)
        (N.lor (N.shiftl (N.land c1 0x3F) 6) (N.land c2 0x3F)).

Definition cp4 (c0 c1 c2 c3 : N) : N :=
  N.lor (N.shiftl (N.land c0 0x07) 18)
        (N.lor (N.shiftl (N.land c1 0x3F) 12)
               (N.lor (N.shiftl (N.land c2 0x3F) 6) (N.land c3 0x3F))).

Fixpoint decode_utf8_replace (bs : list byte) : list N :=
  match bs with
  | [] => []
  | b0 :: r0 =>
    let c0 := Byte.to_N b0 in
    if c0 <? 0x80 then c0 :: decode_utf8_replace r0
    else if c0 <? 0xC2 then REPLACEMENT :: decode_utf8_replace r0
    else if c0 <? 0xE0 then
      match r0 with
      | [] => [REPLACEMENT]
      | b1 :: r1 =>
        let c1 := Byte.to_N b1 in
        if is_continuation c1 then cp2 c0 c1 :: decode_utf8_replace r1
        else REPLACEMENT :: decode_utf8_replace r0
      end
    else if c0 <? 0xF0 then
      match r0 with
      | [] => [REPLACEMENT]
      | b1 :: r1 =>
        let c1 := Byte.to_N b1 in
        if second_of_3 c0 c1 then
          match r1 with
          | [] => [REPLACEMENT]
          | b2 :: r2 =>
            let c2 := Byte.to_N b2 in
            if is_continuation c2 then cp3 c0 c1 c2 :: decode_utf8_replace r2
            else REPLACEMENT :: decode_utf8_replace r1
          end
        else REPLACEMENT :: decode_utf8_replace r0
      end
    else if c0 <? 0xF5 then
      match r0 with
      | [] => [REPLACEMENT]
      | b1 :: r1 =>
        let c1 := Byte.to_N b1 in
        if second_of_4 c0 c1 then
          match r1 with
          | [] => [REPLACEMENT]
          | b2 :: r2 =>
            let c2 := Byte.to_N b2 in
            if is_continuation c2 then
              match r2 with
              | [] => [REPLACEMENT]
              | b3 :: r3 =>
                let c3 := Byte.to_N b3 in
                if is_continuation c3
                then cp4 c0 c1 c2 c3 :: decode_utf8_replace r3
                else REPLACEMENT :: decode_utf8_replace r2
              end
            else REPLACEMENT :: decode_utf8_replace r1
          end
        else REPLACEMENT :: decode_utf8_replace r0
      end
    else REPLACEMENT :: decode_utf8_replace r0
  end.

(** The [str] literal ["target_features"] as code points, and its ASCII
    bytes. *)
Definition target_features_bytes : list byte :=
  list_byte_of_string "target_features".

Definition target_features : list N := map Byte.to_N target_features_bytes.

Definition str_eqb (a b : list N) : bool :=
  if list_eq_dec N.eq_dec a b then true else false.

(** ** main *)

(** The magic [b"\x00asm"]. *)
Definition magic : list byte := [x00; x61; x73; x6d].

Definition bytes_eqb (a b : list byte) : bool :=
  if list_eq_dec Byte.byte_eq_dec a b then true else false.

(** Lines printed on stderr. *)
Inductive diag : Type :=
| Stripped (nbytes : N)  (* "  Stripped 'target_features' (n bytes)" *)
| WarningNotFound.       (* "  Warning: no target_features section found" *)

(** The local variables of [main] that live across loop iterations,
    with the lines printed so far. *)
Record state : Type := mkState {
  pos : N;
  out : list byte;
  stripped : bool;
  stderr : list diag
}.

(** One run of the body of [while pos < len(data)]. *)
Definition main_body (data : list byte) (st : state) : outcome state :=
  let section_start := pos st in
  section_id <- index data (pos st) ;;
  let pos1 := pos st + 1 in
  '(section_size, leb_len) <- read_leb128 data pos1 ;;
  let pos2 := pos1 + leb_len in
  let section_end := pos2 + section_size in
  let keep :=
    Ret (mkState section_end
                 (out st ++ slice data section_start section_end)
                 (stripped st) (stderr st)) in
  if section_id =? 0 then
    '(name_len, name_leb_len) <- read_leb128 data pos2 ;;
    let name_start := pos2 + name_leb_len in
    let name := decode_utf8_replace (slice data name_start (name_start + name_len)) in
    if str_eqb name target_features then
      Ret (mkState section_end (out st) true
                   (stderr st ++ [Stripped (section_end - section_start)]))
    else keep
  else keep.

Fixpoint main_loop (fuel : nat) (data : list byte) (st : state) : outcome state :=
  if pos st <? len data then
    match fuel with
    | O => OutOfFuel
    | S fuel' => st' <- main_body data st ;; main_loop fuel' data st'
    end
  else Ret st.

(** What a completed run leaves behind: the bytes written to the output
    file and the lines printed on stderr.  A run that raises writes no
    output file: the file is opened only after the loop. *)
Record run : Type := mkRun {
  written : list byte;
  printed : list diag
}.

Definition initial (data : list byte) : state :=
  mkState 8 (slice data 0 8) false [].

(** Every iteration advances [pos] by at least two, so [length data]
    iterations always suffice (see [main_terminates]). *)
Definition main (data : list byte) : outcome run :=
  if bytes_eqb (slice data 0 4) magic then
    st <- main_loop (length data) data (initial data) ;;
    Ret (mkRun (out st)
               (if stripped st then stderr st
                else stderr st ++ [WarningNotFound]))
  else Raise AssertionError.

(** The output file after the run, if one was written. *)
Definition output_file (data : list byte) : option (list byte) :=
  match main data with
  | Ret r => Some (written r)
  | _ => None
  end.

(** ** Worked examples *)

Definition header : list byte := magic ++ [x01; x00; x00; x00].

(** A custom section with the given name and trailing payload bytes
    (names and payloads shorter than 128 bytes). *)
Definition custom (name payload : list byte) : list byte :=
  match Byte.of_N (len name), Byte.of_N (1 + len name + len payload) with
  | Some nl, Some sz => x00 :: sz :: nl :: name ++ payload
  | _, _ => []
  end.

Definition other_bytes : list byte := list_byte_of_string "other".


(** The loop of [main] with exactly the fuel its remaining input calls
    for; [main_loop_fuel] shows that more fuel changes nothing. *)
Definition run_from (data : list byte) (st : state) : outcome state :=
  main_loop (N.to_nat (len data - pos st)) data st.

(** The states in which [main] evaluates its loop condition. *)
Inductive reaches (data : list byte) : state -> Prop :=
| reaches_initial : reaches data (initial data)
| reaches_next (st st' : state) :
    reaches data st -> pos st < len data -> main_body data st = Ret st' ->
    reaches data st'.

(** ** Sections

    The frame of a section as the design describes it: an id byte, a
    varint payload size and that many payload bytes. *)
Record section : Type := mkSection {
  sec_start : N;     (* offset of the id byte *)
  sec_id : N;
  size_len : N;      (* number of bytes of the size field *)
  payload_size : N
}.

Definition payload_start (s : section) : N := sec_start s + 1 + size_len s.
Definition sec_end (s : section) : N := payload_start s + payload_size s.
Definition span_len (s : section) : N := 1 + size_len s + payload_size s.

(** The section's full span: id byte, size field and payload. *)
Definition span (data : list byte) (s : section) : list byte :=
  slice data (sec_start s) (sec_end s).

(** Walks the sections from offset [p]; succeeds when every section's
    declared span lies within the buffer and the walk ends at the
    buffer's end exactly. *)
Fixpoint sections_from (fuel : nat) (data : list byte) (p : N)
    : option (list section) :=
  if p =? len data then Some []
  else
    match fuel with
    | O => None
    | S fuel' =>
        match index data p, read_leb128 data (p + 1) with
        | Ret id, Ret (size, l) =>
            let s := mkSection p id l size in
            if sec_end s <=? len data
            then option_map (cons s) (sections_from fuel' data (sec_end s))
            else None
        | _, _ => None
        end
    end.

Definition sections (data : list byte) : option (list section) :=
  sections_from (length data) data 8.

Definition valid_magic (data : list byte) : bool :=
  bytes_eqb (slice data 0 4) magic.

(** The name of a custom section as [main] decodes it: a varint length
    at the payload start and that many bytes after it, taken from the
    buffer. *)
Definition name_of (data : list byte) (s : section) : outcome (list N) :=
  '(name_len, name_leb_len) <- read_leb128 data (payload_start s) ;;
  let name_start := payload_start s + name_leb_len in
  Ret (decode_utf8_replace (slice data name_start (name_start + name_len))).

Definition is_custom (s : section) : bool := sec_id s =? 0.

(** A custom section whose decoded name is ["target_features"]. *)
Definition is_target (data : list byte) (s : section) : bool :=
  is_custom s &&
  match name_of data s with
  | Ret name => str_eqb name target_features
  | _ => false
  end.

(** The name-length varint of a custom section ends within the buffer. *)
Definition name_readable (data : list byte) (s : section) : bool :=
  negb (is_custom s) ||
  match read_leb128 data (payload_start s) with
  | Ret _ => true
  | _ => false
  end.

(** The name field of a custom section (length varint and name bytes)
    lies within the section's payload. *)
Definition name_in_payload (data : list byte) (s : section) : bool :=
  negb (is_custom s) ||
  match read_leb128 data (payload_start s) with
  | Ret (name_len, name_leb_len) => name_leb_len + name_len <=? payload_size s
  | _ => false
  end.

Definition kept (data : list byte) (secs : list section) : list section :=
  filter (fun s => negb (is_target data s)) secs.

Definition removed (data : list byte) (secs : list section) : list section :=
  filter (is_target data) secs.

(** The state after the loop body has run on section [s]. *)
Definition after_section (data : list byte) (st : state) (s : section) : state :=
  if is_target data s
  then mkState (sec_end s) (out st) true (stderr st ++ [Stripped (span_len s)])
  else mkState (sec_end s) (out st ++ span data s) (stripped st) (stderr st).

(** The lines printed for the removed sections. *)
Definition stripped_lines (data : list byte) (secs : list section) : list diag :=
  map (fun s => Stripped (span_len s)) (removed data secs).

Definition total_span_len (secs : list section) : N :=
  fold_right (fun s acc => span_len s + acc) 0 secs.

(** What [main] prints: a line per removed section, or the warning. *)
Definition expected_lines (data : list byte) (secs : list section) : list diag :=
  if existsb (is_target data) secs
  then stripped_lines data secs
  else stripped_lines data secs ++ [WarningNotFound].

(** ** Example modules *)

(** A section with a one-byte size field. *)
Definition sec (id size : byte) (payload : list byte) : list byte :=
  id :: size :: payload.

Definition tf_section : list byte := custom target_features_bytes [].
Definition other_section : list byte := custom other_bytes [xaa].
Definition type_section : list byte := sec x01 x02 [xde; xad].

(** Three "target_features" sections interleaved with two others. *)
Definition ex_multi : list byte :=
  header ++ tf_section ++ other_section ++ tf_section ++ type_section
         ++ tf_section.

(** A custom section with an empty payload, last in the module. *)
Definition ex_empty_custom_last : list byte := header ++ sec x00 x00 [].

(** A custom section whose name is the invalid byte FF, then a custom
    section with an empty payload. *)
Definition ex_invalid_name : list byte :=
  header ++ sec x00 x02 [x01; xff] ++ sec x00 x00 [].

(** A section with id 15 and 116 payload bytes of which the first 14
    spell "arget_features": its first 16 bytes read as a name length of
    15 followed by "target_features". *)
Definition decoy_section : list byte :=
  sec x0f x74 (list_byte_of_string "arget_features" ++ repeat x00 102).

(** An empty custom section followed by the decoy. *)
Definition ex_short_then_decoy : list byte :=
  header ++ sec x00 x00 [] ++ decoy_section.

(** An empty custom section followed by an ordinary section. *)
Definition ex_short_then_type : list byte :=
  header ++ sec x00 x00 [] ++ type_section.

(** An empty custom section, a "target_features" section, the decoy. *)
Definition ex_not_idempotent : list byte :=
  header ++ sec x00 x00 [] ++ tf_section ++ decoy_section.

(** A section with id 1 that declares 5 payload bytes and has 1. *)
Definition ex_truncated : list byte := header ++ sec x01 x05 [xaa].

(** A section whose size varint never ends. *)
Definition ex_unterminated : list byte := header ++ [x01; x80; xff].

(** ** Auxiliary definitions used in the statements *)

(** [read_leb128] only looks at [data[offset:]]; [leb_scan] is the same
    loop running down that suffix, counting the bytes it has read. *)
Fixpoint leb_scan (bs : list byte) (result shift n : N) : outcome (N * N) :=
  match bs with
  | [] => Raise IndexError
  | b :: bs' =>
      let byte := Byte.to_N b in
      let result := N.lor result (N.shiftl (N.land byte 0x7F) shift) in
      if N.land byte 0x80 =? 0 then Ret (result, n + 1)
      else leb_scan bs' result (shift + 7) (n + 1)
  end.

(** A byte with the continuation bit (0x80) set. *)
Definition continues (b : byte) : bool :=
  negb (N.land (Byte.to_N b) 0x80 =? 0).

(** The value of a varint as the design states it: each byte contributes
    its low 7 bits, shifted left by [7 * byte_index]. *)
Fixpoint leb_value (bs : list byte) (byte_index : N) : N :=
  match bs with
  | [] => 0
  | b :: bs' =>
      N.lor (N.shiftl (N.land (Byte.to_N b) 0x7F) (7 * byte_index))
            (leb_value bs' (byte_index + 1))
  end.

(** Well-formed UTF-8 (Unicode, table 3-7): what a strict decoder
    accepts. *)
Fixpoint valid_utf8 (bs : list byte) : bool :=
  match bs with
  | [] => true
  | b0 :: r0 =>
    let c0 := Byte.to_N b0 in
    if c0 <? 0x80 then valid_utf8 r0
    else if c0 <? 0xC2 then false
    else if c0 <? 0xE0 then
      match r0 with
      | b1 :: r1 => is_continuation (Byte.to_N b1) && valid_utf8 r1
      | _ => false
      end
    else if c0 <? 0xF0 then
      match r0 with
      | b1 :: b2 :: r2 =>
          second_of_3 c0 (Byte.to_N b1) && is_continuation (Byte.to_N b2)
          && valid_utf8 r2
      | _ => false
      end
    else if c0 <? 0xF5 then
      match r0 with
      | b1 :: b2 :: b3 :: r3 =>
          second_of_4 c0 (Byte.to_N b1) && is_continuation (Byte.to_N b2)
          && is_continuation (Byte.to_N b3) && valid_utf8 r3
      | _ => false
      end
    else false
  end.

(** Two sections, neither named "target_features". *)
Definition ex_absent : list byte := header ++ other_section ++ type_section.

(** A custom section whose name is the invalid byte FF, then a
    "target_features" section, then another custom section. *)
Definition ex_invalid_then_target : list byte :=
  header ++ sec x00 x02 [x01; xff] ++ tf_section ++ other_section.

(** The varint E5 8E 26 (624485). *)
Definition ex_varint : list byte := [xe5; x8e; x26].

(** No byte of [data[p:]] clears the continuation bit: a varint read at
    [p] cannot end within the buffer. *)
Definition unterminated (data : list byte) (p : N) : bool :=
  forallb continues (skipn (N.to_nat p) data).

(** The frames of [secs] laid out back to back from offset [p]. *)
Fixpoint relocate (p : N) (secs : list section) : list section :=
  match secs with
  | [] => []
  | s :: rest =>
      mkSection p (sec_id s) (size_len s) (payload_size s)
      :: relocate (p + span_len s) rest
  end.

Ltac pow_consts :=
  change (2 ^ 3) with 8 in *; change (2 ^ 4) with 16 in *;
  change (2 ^ 5) with 32 in *; change (2 ^ 6) with 64 in *;
  change (2 ^ 12) with 4096 in *; change (2 ^ 18) with 262144 in *.

(** ** Notions used for the further properties of the run *)

(** [a] is [b] with some elements deleted: same elements, same order. *)
Inductive subseq {A : Type} : list A -> list A -> Prop :=
| subseq_nil : subseq [] []
| subseq_skip (x : A) (a b : list A) : subseq a b -> subseq a (x :: b)
| subseq_take (x : A) (a b : list A) : subseq a b -> subseq (x :: a) (x :: b).

(** The total of the byte counts in the "Stripped" lines. *)
Fixpoint reported_bytes (lines : list diag) : N :=
  match lines with
  | [] => 0
  | Stripped n :: rest => n + reported_bytes rest
  | WarningNotFound :: rest => reported_bytes rest
  end.

Definition is_stripped_line (d : diag) : bool :=
  match d with
  | Stripped _ => true
  | WarningNotFound => false
  end.

(** A module of three sections with ids 1, 2 and 3, none of them custom;
    the payload of the second starts like a "target_features" section. *)
Definition ex_no_custom : list byte :=
  header ++ type_section ++ sec x02 x12 tf_section ++ sec x03 x00 [].

(** What holds whenever [main] evaluates its loop condition. *)
Record loop_invariant (data : list byte) (st : state) : Prop := {
  inv_pos : 8 <= pos st;
  inv_header : firstn 8 (out st) = firstn 8 data;
  inv_subseq : subseq (out st) (firstn (N.to_nat (pos st)) data);
  inv_untouched :
    stripped st = false -> out st = firstn (N.to_nat (pos st)) data;
  inv_changed :
    stripped st = true -> len (out st) < N.min (pos st) (len data);
  inv_flag : stripped st = false <-> stderr st = [];
  inv_lines : forallb is_stripped_line (stderr st) = true;
  inv_account :
    N.min (pos st) (len data) <= len (out st) + reported_bytes (stderr st)
}.

(** * Properties *)

(** The example of the design: one "target_features" section with payload
    01 02, then a custom section "other" with payload AA. *)
Example spec_example :
  main (header ++ custom target_features_bytes [x01; x02] ++ custom other_bytes [xaa])
  = Ret (mkRun (header ++ custom other_bytes [xaa]) [Stripped 20]).
Proof. vm_compute. reflexivity. Qed.

(** ** Indexing and slicing *)

Lemma len_app (a b : list byte) : len (a ++ b) = len a + len b.
Proof. unfold len. rewrite length_app. lia. Qed.

Lemma len_cons (x : byte) (a : list byte) : len (x :: a) = 1 + len a.
Proof. unfold len. cbn [length]. lia. Qed.

Lemma len_nil : len [] = 0.
Proof. reflexivity. Qed.

Lemma index_skipn (data : list byte) (i : N) :
  index data i =
  match skipn (N.to_nat i) data with
  | b :: _ => Ret (Byte.to_N b)
  | [] => Raise IndexError
  end.
Proof.
  unfold index. rewrite <- hd_error_skipn.
  destruct (skipn (N.to_nat i) data); reflexivity.
Qed.

Lemma index_Ret_lt (data : list byte) (i v : N) :
  index data i = Ret v -> i < len data.
Proof.
  unfold index, len. destruct (nth_error data (N.to_nat i)) eqn:E; [|discriminate].
  intros _. assert (H : nth_error data (N.to_nat i) <> None) by congruence.
  apply nth_error_Some in H. lia.
Qed.

Lemma index_lt_Ret (data : list byte) (i : N) :
  i < len data -> exists v, index data i = Ret v /\ v <= 255.
Proof.
  unfold index, len. intros H.
  destruct (nth_error data (N.to_nat i)) eqn:E.
  - eexists. split; [reflexivity|]. apply Byte.to_N_bounded.
  - apply nth_error_None in E. lia.
Qed.

Lemma index_never_OutOfFuel (data : list byte) (i : N) :
  index data i <> OutOfFuel.
Proof. unfold index. destruct (nth_error _ _); discriminate. Qed.

Lemma slice_skipn_app (data sp rest : list byte) (a b : N) :
  skipn (N.to_nat a) data = sp ++ rest -> b = a + len sp ->
  slice data a b = sp.
Proof.
  intros H ->. unfold slice. rewrite H.
  replace (N.to_nat (a + len sp - a)) with (length sp + 0)%nat by (unfold len; lia).
  rewrite firstn_app_2. simpl. apply app_nil_r.
Qed.

Lemma slice_to_end (data : list byte) (a b : N) :
  len data <= b -> slice data a b = skipn (N.to_nat a) data.
Proof.
  intros H. unfold slice. apply firstn_all2.
  rewrite length_skipn. unfold len in H. lia.
Qed.

Lemma slice_0 (data : list byte) (b : N) :
  slice data 0 b = firstn (N.to_nat b) data.
Proof. unfold slice. rewrite N.sub_0_r. reflexivity. Qed.

Lemma skipn_add_tail (data sp rest : list byte) (a : N) :
  skipn (N.to_nat a) data = sp ++ rest ->
  skipn (N.to_nat (a + len sp)) data = rest.
Proof.
  intros H.
  replace (N.to_nat (a + len sp)) with (length sp + N.to_nat a)%nat
    by (unfold len; lia).
  rewrite <- skipn_skipn, H, skipn_app, skipn_all, Nat.sub_diag. reflexivity.
Qed.

Lemma skipn_succ_tail (data : list byte) (a : N) (b : byte) (rest : list byte) :
  skipn (N.to_nat a) data = b :: rest ->
  skipn (N.to_nat (a + 1)) data = rest.
Proof. intros H. apply (skipn_add_tail data [b] rest a H). Qed.

Lemma skipn_len_bound (data : list byte) (a : N) :
  a <= len data -> len (skipn (N.to_nat a) data) = len data - a.
Proof. unfold len. rewrite length_skipn. lia. Qed.

(** ** The varint reader on a suffix of the buffer *)

Lemma read_leb128_loop_scan (fuel : nat) (data : list byte)
    (offset result shift i : N) :
  offset <= i ->
  (length (skipn (N.to_nat i) data) < fuel)%nat ->
  read_leb128_loop fuel data offset result shift i =
  leb_scan (skipn (N.to_nat i) data) result shift (i - offset).
Proof.
  revert result shift i.
  induction fuel as [|fuel IH]; intros result shift i Hle Hfuel; [lia|].
  simpl. rewrite index_skipn.
  destruct (skipn (N.to_nat i) data) as [|b rest] eqn:E; [reflexivity|].
  simpl. destruct (N.land (Byte.to_N b) 128 =? 0).
  - do 2 f_equal. lia.
  - pose proof (skipn_succ_tail _ _ _ _ E) as E'.
    rewrite IH by (try rewrite E'; simpl in Hfuel; lia).
    rewrite E'. f_equal. lia.
Qed.

Lemma read_leb128_scan (data : list byte) (offset : N) :
  read_leb128 data offset = leb_scan (skipn (N.to_nat offset) data) 0 0 0.
Proof.
  unfold read_leb128. rewrite read_leb128_loop_scan.
  - rewrite N.sub_diag. reflexivity.
  - lia.
  - rewrite length_skipn. lia.
Qed.

Lemma leb_scan_never_OutOfFuel (bs : list byte) (result shift n : N) :
  leb_scan bs result shift n <> OutOfFuel.
Proof.
  revert result shift n. induction bs as [|b bs IH]; intros; simpl.
  - discriminate.
  - destruct (_ =? 0); [discriminate | apply IH].
Qed.

(** The loop of [read_leb128] always ends: by a [break] or by an
    [IndexError]. *)
Lemma read_leb128_terminates (data : list byte) (offset : N) :
  read_leb128 data offset <> OutOfFuel.
Proof. rewrite read_leb128_scan. apply leb_scan_never_OutOfFuel. Qed.

Lemma leb_scan_Raise (bs : list byte) (result shift n : N) (e : exn) :
  leb_scan bs result shift n = Raise e -> e = IndexError.
Proof.
  revert result shift n. induction bs as [|b bs IH]; intros result shift n; simpl.
  - congruence.
  - destruct (_ =? 0); [discriminate | apply IH].
Qed.

Lemma leb_scan_consumed (bs : list byte) (result shift n v m : N) :
  leb_scan bs result shift n = Ret (v, m) ->
  n + 1 <= m /\ m <= n + len bs.
Proof.
  revert result shift n. induction bs as [|b bs IH]; intros result shift n; simpl.
  - discriminate.
  - rewrite len_cons. destruct (_ =? 0).
    + intros [= _ <-]. lia.
    + intros H. apply IH in H. lia.
Qed.

(** A successful read depends only on the bytes it consumed. *)
Lemma leb_scan_app (a b : list byte) (result shift n v m : N) :
  leb_scan a result shift n = Ret (v, m) ->
  leb_scan (a ++ b) result shift n = Ret (v, m).
Proof.
  revert result shift n. induction a as [|x a IH]; intros result shift n; simpl.
  - discriminate.
  - destruct (_ =? 0); [trivial | apply IH].
Qed.

Lemma leb_scan_firstn (bs : list byte) (result shift n v m : N) :
  leb_scan bs result shift n = Ret (v, m) ->
  leb_scan (firstn (N.to_nat (m - n)) bs) result shift n = Ret (v, m).
Proof.
  revert result shift n. induction bs as [|x bs IH]; intros result shift n; simpl.
  - discriminate.
  - destruct (N.land (Byte.to_N x) 128 =? 0) eqn:E.
    + intros [= <- <-]. replace (N.to_nat (n + 1 - n)) with 1%nat by lia.
      simpl. rewrite E. reflexivity.
    + intros H. pose proof (leb_scan_consumed _ _ _ _ _ _ H) as [Hlo _].
      replace (N.to_nat (m - n)) with (S (N.to_nat (m - (n + 1)))) by lia.
      simpl. rewrite E. apply IH, H.
Qed.

Lemma leb_scan_value (pre : list byte) (t : byte) (post : list byte)
    (result k n : N) :
  forallb continues pre = true -> continues t = false ->
  leb_scan (pre ++ t :: post) result (7 * k) n =
  Ret (N.lor result (leb_value (pre ++ [t]) k), n + len pre + 1).
Proof.
  revert result k n. induction pre as [|x pre IH]; intros result k n Hpre Ht.
  - unfold continues in Ht. apply negb_false_iff in Ht.
    cbn [leb_scan app leb_value]. rewrite Ht, N.lor_0_r, len_nil. do 2 f_equal. lia.
  - simpl in Hpre. apply andb_prop in Hpre as [Hx Hpre].
    unfold continues in Hx. apply negb_true_iff in Hx.
    cbn [leb_scan app leb_value]. rewrite Hx.
    replace (7 * k + 7) with (7 * (k + 1)) by lia.
    rewrite IH by assumption. rewrite len_cons, N.lor_assoc.
    do 2 f_equal. lia.
Qed.

Lemma leb_scan_value0 (pre : list byte) (t : byte) (post : list byte) :
  forallb continues pre = true -> continues t = false ->
  leb_scan (pre ++ t :: post) 0 0 0 =
  Ret (leb_value (pre ++ [t]) 0, len pre + 1).
Proof.
  intros Hpre Ht. change (leb_scan (pre ++ t :: post) 0 0 0)
    with (leb_scan (pre ++ t :: post) 0 (7 * 0) 0).
  rewrite leb_scan_value by assumption. rewrite N.lor_0_l. reflexivity.
Qed.

Lemma leb_scan_unterminated (bs : list byte) (result shift n : N) :
  forallb continues bs = true ->
  leb_scan bs result shift n = Raise IndexError.
Proof.
  revert result shift n. induction bs as [|b bs IH]; intros result shift n H.
  - reflexivity.
  - simpl in H. apply andb_prop in H as [Hb H].
    unfold continues in Hb. apply negb_true_iff in Hb.
    simpl. rewrite Hb. apply IH, H.
Qed.

Lemma leb_scan_Raise_unterminated (bs : list byte) (result shift n : N) (e : exn) :
  leb_scan bs result shift n = Raise e -> forallb continues bs = true.
Proof.
  revert result shift n. induction bs as [|b bs IH]; intros result shift n;
    cbn [leb_scan forallb]; [reflexivity|].
  unfold continues at 1. destruct (N.land (Byte.to_N b) 128 =? 0);
    [discriminate|]. intros H. cbn [negb andb]. eapply IH, H.
Qed.

(** Splitting a byte string at its first terminating byte. *)
Lemma first_terminator (bs : list byte) :
  existsb (fun b => negb (continues b)) bs = true ->
  exists pre t post,
    bs = pre ++ t :: post /\ forallb continues pre = true /\ continues t = false.
Proof.
  induction bs as [|b bs IH]; simpl; [discriminate|].
  destruct (continues b) eqn:Hb; simpl.
  - intros H. destruct (IH H) as (pre & t & post & -> & Hpre & Ht).
    exists (b :: pre), t, post. simpl. rewrite Hb. auto.
  - intros _. exists [], b, bs. auto.
Qed.

Lemma read_leb128_consumed (data : list byte) (offset v n : N) :
  read_leb128 data offset = Ret (v, n) ->
  1 <= n /\ offset + n <= len data.
Proof.
  rewrite read_leb128_scan. intros H.
  apply leb_scan_consumed in H as [Hlo Hhi]. split; [lia|].
  destruct (N.le_gt_cases offset (len data)) as [Hle|Hgt].
  - rewrite skipn_len_bound in Hhi by assumption. lia.
  - rewrite skipn_all2 in Hhi by (unfold len in Hgt; lia).
    rewrite len_nil in Hhi. lia.
Qed.

Lemma read_leb128_Raise (data : list byte) (offset : N) (e : exn) :
  read_leb128 data offset = Raise e -> e = IndexError.
Proof. rewrite read_leb128_scan. apply leb_scan_Raise. Qed.

Lemma leb_value_run_of_continuations (k : nat) (j : N) :
  leb_value (repeat x80 k ++ [x00]) j = 0.
Proof.
  revert j. induction k as [|k IH]; intros j; [reflexivity|].
  cbn [repeat app leb_value]. rewrite IH. reflexivity.
Qed.

Lemma read_leb128_run_of_continuations (k : nat) :
  read_leb128 (repeat x80 k ++ [x00]) 0 = Ret (0, N.of_nat k + 1).
Proof.
  rewrite read_leb128_scan. simpl skipn.
  rewrite leb_scan_value0.
  - unfold len. rewrite repeat_length, leb_value_run_of_continuations.
    reflexivity.
  - induction k; [reflexivity | assumption].
  - reflexivity.
Qed.

(** ** The loop of main *)

Lemma bind_Ret_inv {A B : Type} (m : outcome A) (k : A -> outcome B) (b : B) :
  bind m k = Ret b -> exists a, m = Ret a /\ k a = Ret b.
Proof. destruct m; simpl; try discriminate. eauto. Qed.

Lemma main_body_advances (data : list byte) (st st' : state) :
  main_body data st = Ret st' -> pos st + 2 <= pos st'.
Proof.
  unfold main_body. intros H.
  apply bind_Ret_inv in H as (id & _ & H).
  apply bind_Ret_inv in H as ([size l] & Hsz & H).
  apply read_leb128_consumed in Hsz as [Hl _].
  destruct (id =? 0).
  - apply bind_Ret_inv in H as ([nl nll] & _ & H).
    destruct (str_eqb _ _); injection H as <-; simpl; lia.
  - injection H as <-; simpl; lia.
Qed.

Lemma main_body_terminates (data : list byte) (st : state) :
  main_body data st <> OutOfFuel.
Proof.
  unfold main_body.
  destruct (index data (pos st)) as [id| |] eqn:Hid; simpl;
    [| discriminate | now apply index_never_OutOfFuel in Hid].
  destruct (read_leb128 data (pos st + 1)) as [[size l]| |] eqn:Hsz; simpl;
    [| discriminate | now apply read_leb128_terminates in Hsz].
  destruct (id =? 0); [|discriminate].
  destruct (read_leb128 data (pos st + 1 + l)) as [[nl nll]| |] eqn:Hnm; simpl;
    [| discriminate | now apply read_leb128_terminates in Hnm].
  destruct (str_eqb _ _); discriminate.
Qed.

Lemma main_body_Raise (data : list byte) (st : state) (e : exn) :
  main_body data st = Raise e -> e = IndexError.
Proof.
  unfold main_body.
  destruct (index data (pos st)) as [id| |] eqn:Hid; simpl.
  - destruct (read_leb128 data (pos st + 1)) as [[size l]| |] eqn:Hsz; simpl.
    + destruct (id =? 0); [|discriminate].
      destruct (read_leb128 data (pos st + 1 + l)) as [[nl nll]| |] eqn:Hnm; simpl.
      * destruct (str_eqb _ _); discriminate.
      * intros [= <-]. eapply read_leb128_Raise, Hnm.
      * discriminate.
    + intros [= <-]. eapply read_leb128_Raise, Hsz.
    + discriminate.
  - unfold index in Hid. destruct (nth_error _ _); [discriminate|].
    injection Hid as <-. congruence.
  - discriminate.
Qed.

(** Fuel beyond the bytes that remain is never used. *)
Lemma main_loop_fuel (f1 f2 : nat) (data : list byte) (st : state) :
  (N.to_nat (len data - pos st) <= f1)%nat ->
  (N.to_nat (len data - pos st) <= f2)%nat ->
  main_loop f1 data st = main_loop f2 data st.
Proof.
  revert f2 st. induction f1 as [|f1 IH]; intros f2 st H1 H2;
    destruct f2 as [|f2]; simpl;
    destruct (pos st <? len data) eqn:Hlt; try reflexivity;
    apply N.ltb_lt in Hlt; try lia.
  destruct (main_body data st) as [st'| |] eqn:Hb; simpl; try reflexivity.
  apply main_body_advances in Hb. apply IH; lia.
Qed.

Lemma run_from_unfold (data : list byte) (st : state) :
  run_from data st =
  if pos st <? len data
  then st' <- main_body data st ;; run_from data st'
  else Ret st.
Proof.
  unfold run_from. destruct (pos st <? len data) eqn:Hlt.
  - apply N.ltb_lt in Hlt.
    destruct (N.to_nat (len data - pos st)) as [|f] eqn:Hf; [lia|].
    simpl. apply N.ltb_lt in Hlt. rewrite Hlt. apply N.ltb_lt in Hlt.
    destruct (main_body data st) as [st'| |] eqn:Hb; simpl; try reflexivity.
    apply main_body_advances in Hb. apply main_loop_fuel; lia.
  - destruct (N.to_nat (len data - pos st)); simpl; rewrite Hlt; reflexivity.
Qed.

Lemma run_from_terminates (data : list byte) (st : state) :
  run_from data st <> OutOfFuel.
Proof.
  remember (N.to_nat (len data - pos st)) as k eqn:Hk.
  revert st Hk. induction k as [k IH] using lt_wf_ind. intros st Hk.
  rewrite run_from_unfold. destruct (pos st <? len data) eqn:Hlt; [|discriminate].
  apply N.ltb_lt in Hlt.
  destruct (main_body data st) as [st'| |] eqn:Hb; simpl.
  - apply main_body_advances in Hb.
    apply (IH (N.to_nat (len data - pos st'))); [lia | reflexivity].
  - discriminate.
  - now apply main_body_terminates in Hb.
Qed.

Lemma run_from_Raise (data : list byte) (st : state) (e : exn) :
  run_from data st = Raise e -> e = IndexError.
Proof.
  remember (N.to_nat (len data - pos st)) as k eqn:Hk.
  revert st Hk. induction k as [k IH] using lt_wf_ind. intros st Hk.
  rewrite run_from_unfold. destruct (pos st <? len data) eqn:Hlt; [|discriminate].
  apply N.ltb_lt in Hlt.
  destruct (main_body data st) as [st'| |] eqn:Hb; simpl.
  - apply main_body_advances in Hb.
    apply (IH (N.to_nat (len data - pos st'))); [lia | reflexivity].
  - intros [= <-]. eapply main_body_Raise, Hb.
  - discriminate.
Qed.

Lemma main_run_from (data : list byte) :
  main data =
  if valid_magic data then
    st <- run_from data (initial data) ;;
    Ret (mkRun (out st)
               (if stripped st then stderr st
                else stderr st ++ [WarningNotFound]))
  else Raise AssertionError.
Proof.
  unfold main, valid_magic. destruct (bytes_eqb _ _); [|reflexivity].
  f_equal. unfold run_from. apply main_loop_fuel; unfold len; simpl; lia.
Qed.

(** [main] always finishes: it returns or it raises. *)
Lemma main_terminates (data : list byte) : main data <> OutOfFuel.
Proof.
  rewrite main_run_from. destruct (valid_magic data); [|discriminate].
  destruct (run_from data (initial data)) eqn:H; simpl; try discriminate.
  now apply run_from_terminates in H.
Qed.

Lemma reaches_run_from (data : list byte) (st : state) :
  reaches data st -> run_from data (initial data) = run_from data st.
Proof.
  induction 1 as [|st st' _ IH Hlt Hb]; [reflexivity|].
  rewrite IH, (run_from_unfold data st).
  apply N.ltb_lt in Hlt. rewrite Hlt, Hb. reflexivity.
Qed.

(** ** The loop on a framed module *)

Lemma main_body_section (data : list byte) (st : state) (id size l : N) :
  index data (pos st) = Ret id ->
  read_leb128 data (pos st + 1) = Ret (size, l) ->
  name_readable data (mkSection (pos st) id l size) = true ->
  main_body data st = Ret (after_section data st (mkSection (pos st) id l size)).
Proof.
  intros Hid Hsz Hnm.
  unfold main_body, after_section, is_target, name_readable, name_of, span,
    is_custom, span_len, sec_end, payload_start in *.
  cbn [sec_start sec_id size_len payload_size] in *.
  rewrite Hid, Hsz. cbn [bind].
  destruct (id =? 0); cbn [negb orb andb] in *; [|reflexivity].
  destruct (read_leb128 data (pos st + 1 + l)) as [[nl nll]| |];
    try discriminate.
  cbn [bind]. destruct (str_eqb _ _); [|reflexivity].
  do 5 f_equal. lia.
Qed.

Lemma kept_cons (data : list byte) (s : section) (rest : list section) :
  kept data (s :: rest) =
  if is_target data s then kept data rest else s :: kept data rest.
Proof. unfold kept. simpl. destruct (is_target data s); reflexivity. Qed.

Lemma removed_cons (data : list byte) (s : section) (rest : list section) :
  removed data (s :: rest) =
  if is_target data s then s :: removed data rest else removed data rest.
Proof. reflexivity. Qed.

Lemma run_from_sections (fuel : nat) (data : list byte) :
  forall (p : N) (secs : list section) (st : state),
  sections_from fuel data p = Some secs ->
  forallb (name_readable data) secs = true ->
  pos st = p ->
  run_from data st =
  Ret (mkState (len data)
               (out st ++ concat (map (span data) (kept data secs)))
               (stripped st || existsb (is_target data) secs)
               (stderr st ++ stripped_lines data secs)).
Proof.
  induction fuel as [|fuel IH]; intros p secs st Hsec Hnames Hpos;
    rewrite run_from_unfold; cbn [sections_from] in Hsec;
    destruct (p =? len data) eqn:Hend.
  1,3: apply N.eqb_eq in Hend; injection Hsec as <-;
       rewrite Hpos, Hend, N.ltb_irrefl; destruct st; simpl in *;
       subst; rewrite !app_nil_r, orb_false_r; reflexivity.
  - discriminate.
  - destruct (index data p) as [id| |] eqn:Hid; try discriminate.
    destruct (read_leb128 data (p + 1)) as [[size l]| |] eqn:Hsz;
      try discriminate.
    cbv zeta in Hsec.
    destruct (sec_end (mkSection p id l size) <=? len data); [|discriminate].
    destruct (sections_from fuel data _) as [rest|] eqn:Hrest; [|discriminate].
    injection Hsec as <-. cbn [forallb] in Hnames.
    apply andb_prop in Hnames as [Hnm Hnames].
    pose proof (index_Ret_lt _ _ _ Hid) as Hlt. apply N.ltb_lt in Hlt.
    subst p. rewrite Hlt.
    rewrite (main_body_section _ _ _ _ _ Hid Hsz Hnm). cbn [bind].
    set (s := mkSection (pos st) id l size) in *.
    assert (Hp : pos (after_section data st s) = sec_end s)
      by (unfold after_section; destruct (is_target _ _); reflexivity).
    rewrite (IH _ _ _ Hrest Hnames Hp).
    unfold after_section, stripped_lines.
    rewrite kept_cons, removed_cons. cbn [existsb].
    destruct (is_target data s);
      cbn [negb map concat pos out stripped stderr orb].
    + rewrite orb_true_r, <- app_assoc. reflexivity.
    + rewrite <- app_assoc. reflexivity.
Qed.

(** ** The decoder and the comparison with "target_features" *)

Lemma N_lor_add_ldiff (a b : N) : N.lor a b = a + N.ldiff b a.
Proof.
  rewrite N.add_nocarry_lxor.
  - apply N.bits_inj. intros i.
    rewrite N.lor_spec, N.lxor_spec, N.ldiff_spec.
    destruct (N.testbit a i), (N.testbit b i); reflexivity.
  - rewrite N.land_comm. apply N.land_ldiff.
Qed.

Lemma N_le_lor_l (a b : N) : a <= N.lor a b.
Proof. rewrite N_lor_add_ldiff. lia. Qed.

Lemma N_le_lor_r (a b : N) : b <= N.lor a b.
Proof. rewrite N.lor_comm. apply N_le_lor_l. Qed.

Lemma land_low_bits (c k q : N) :
  q * 2 ^ k <= c -> c < (q + 1) * 2 ^ k ->
  N.land c (N.ones k) = c - q * 2 ^ k.
Proof.
  intros Hlo Hhi. rewrite N.land_ones. symmetry.
  apply N.mod_unique with (q := q); rewrite ?(N.mul_comm (2 ^ k) q); lia.
Qed.

Lemma is_continuation_range (c : N) :
  is_continuation c = true -> 0x80 <= c < 0xC0.
Proof.
  unfold is_continuation. intros H. apply andb_prop in H as [H1 H2].
  apply N.leb_le in H1, H2. lia.
Qed.

Lemma cp2_not_ascii (c0 c1 : N) :
  0xC2 <= c0 -> c0 < 0xE0 -> 0x80 <= cp2 c0 c1.
Proof.
  intros Hlo Hhi. unfold cp2.
  etransitivity; [|apply N_le_lor_l].
  rewrite N.shiftl_mul_pow2. change 0x1F with (N.ones 5).
  rewrite (land_low_bits c0 5 6) by (pow_consts; lia). pow_consts. lia.
Qed.

Lemma cp3_not_ascii (c0 c1 c2 : N) :
  0xE0 <= c0 -> c0 < 0xF0 -> second_of_3 c0 c1 = true ->
  0x80 <= cp3 c0 c1 c2.
Proof.
  intros Hlo Hhi H2. unfold cp3. unfold second_of_3 in H2.
  apply andb_prop in H2 as [Hc H2]. apply is_continuation_range in Hc.
  destruct (N.eq_dec c0 0xE0) as [->|Hne].
  - etransitivity; [|apply N_le_lor_r]. etransitivity; [|apply N_le_lor_l].
    destruct (c1 <? 0xA0) eqn:E; [discriminate|]. apply N.ltb_ge in E.
    rewrite N.shiftl_mul_pow2. change 0x3F with (N.ones 6).
    rewrite (land_low_bits c1 6 2) by (pow_consts; lia). pow_consts. lia.
  - etransitivity; [|apply N_le_lor_l].
    rewrite N.shiftl_mul_pow2. change 0x0F with (N.ones 4).
    rewrite (land_low_bits c0 4 14) by (pow_consts; lia). pow_consts. lia.
Qed.

Lemma cp4_not_ascii (c0 c1 c2 c3 : N) :
  0xF0 <= c0 -> c0 < 0xF5 -> second_of_4 c0 c1 = true ->
  0x80 <= cp4 c0 c1 c2 c3.
Proof.
  intros Hlo Hhi H2. unfold cp4. unfold second_of_4 in H2.
  apply andb_prop in H2 as [Hc H2]. apply is_continuation_range in Hc.
  destruct (N.eq_dec c0 0xF0) as [->|Hne].
  - etransitivity; [|apply N_le_lor_r]. etransitivity; [|apply N_le_lor_l].
    destruct (c1 <? 0x90) eqn:E; [discriminate|]. apply N.ltb_ge in E.
    rewrite N.shiftl_mul_pow2. change 0x3F with (N.ones 6).
    rewrite (land_low_bits c1 6 2) by (pow_consts; lia). pow_consts. lia.
  - etransitivity; [|apply N_le_lor_l].
    rewrite N.shiftl_mul_pow2. change 0x07 with (N.ones 3).
    rewrite (land_low_bits c0 3 30) by (pow_consts; lia). pow_consts. lia.
Qed.

(** An ASCII code point at the head of the decoded text comes from the
    same single byte at the head of the input. *)
Lemma decode_head_ascii (b0 : byte) (r0 : list byte) :
  exists c cs,
    decode_utf8_replace (b0 :: r0) = c :: cs /\
    (c < 0x80 -> c = Byte.to_N b0 /\ cs = decode_utf8_replace r0).
Proof.
  cbn [decode_utf8_replace]. cbv zeta.
  set (c0 := Byte.to_N b0).
  assert (Hrep : forall cs : list N, exists c cs',
             REPLACEMENT :: cs = c :: cs' /\
             (c < 0x80 -> c = c0 /\ cs' = decode_utf8_replace r0)).
  { intros cs. exists REPLACEMENT, cs. split; [reflexivity|].
    unfold REPLACEMENT. lia. }
  destruct (c0 <? 0x80) eqn:E1; [eauto|]. apply N.ltb_ge in E1.
  destruct (c0 <? 0xC2) eqn:E2; [apply Hrep|]. apply N.ltb_ge in E2.
  destruct (c0 <? 0xE0) eqn:E3.
  { apply N.ltb_lt in E3. destruct r0 as [|b1 r1]; [apply Hrep|].
    destruct (is_continuation _); [|apply Hrep].
    eexists _, _. split; [reflexivity|].
    pose proof (cp2_not_ascii c0 (Byte.to_N b1) E2 E3). lia. }
  apply N.ltb_ge in E3.
  destruct (c0 <? 0xF0) eqn:E4.
  { apply N.ltb_lt in E4. destruct r0 as [|b1 r1]; [apply Hrep|].
    destruct (second_of_3 _ _) eqn:S3; [|apply Hrep].
    destruct r1 as [|b2 r2]; [apply Hrep|].
    destruct (is_continuation _); [|apply Hrep].
    eexists _, _. split; [reflexivity|].
    pose proof (cp3_not_ascii c0 _ (Byte.to_N b2) E3 E4 S3). lia. }
  apply N.ltb_ge in E4.
  destruct (c0 <? 0xF5) eqn:E5; [|apply Hrep].
  apply N.ltb_lt in E5. destruct r0 as [|b1 r1]; [apply Hrep|].
  destruct (second_of_4 _ _) eqn:S4; [|apply Hrep].
  destruct r1 as [|b2 r2]; [apply Hrep|].
  destruct (is_continuation _); [|apply Hrep].
  destruct r2 as [|b3 r3]; [apply Hrep|].
  destruct (is_continuation _); [|apply Hrep].
  eexists _, _. split; [reflexivity|].
  pose proof (cp4_not_ascii c0 _ (Byte.to_N b2) (Byte.to_N b3) E4 E5 S4). lia.
Qed.

Lemma decode_ascii (bs : list byte) :
  Forall (fun c => c < 0x80) (decode_utf8_replace bs) ->
  decode_utf8_replace bs = map Byte.to_N bs.
Proof.
  induction bs as [|b0 r0 IH]; [reflexivity|].
  destruct (decode_head_ascii b0 r0) as (c & cs & -> & H).
  intros HF. inversion HF as [|? ? Hc Hcs]; subst.
  destruct (H Hc) as [-> ->]. simpl. f_equal. apply IH, Hcs.
Qed.

Lemma to_N_inj (a b : byte) : Byte.to_N a = Byte.to_N b -> a = b.
Proof.
  intros H. pose proof (Byte.of_to_N a) as Ha. rewrite H, Byte.of_to_N in Ha.
  congruence.
Qed.

Lemma map_to_N_inj (a b : list byte) :
  map Byte.to_N a = map Byte.to_N b -> a = b.
Proof.
  revert b. induction a as [|x a IH]; intros [|y b]; simpl; try discriminate.
  - reflexivity.
  - intros [= Hxy Hab]. f_equal; [apply to_N_inj, Hxy | apply IH, Hab].
Qed.

(** The comparison [name == "target_features"] succeeds exactly when the
    name bytes are the ASCII bytes of the literal. *)
Lemma decode_is_target (bs : list byte) :
  str_eqb (decode_utf8_replace bs) target_features = true <->
  bs = target_features_bytes.
Proof.
  unfold str_eqb. destruct (list_eq_dec _ _ _) as [E|E]; split;
    try discriminate; try reflexivity.
  - intros _. apply map_to_N_inj. rewrite <- decode_ascii; [exact E|].
    rewrite E. vm_compute. repeat constructor.
  - intros ->. exfalso. apply E. vm_compute. reflexivity.
Qed.

Lemma invalid_utf8_never_target (bs : list byte) :
  valid_utf8 bs = false ->
  str_eqb (decode_utf8_replace bs) target_features = false.
Proof.
  intros H. destruct (str_eqb _ _) eqn:E; [|reflexivity].
  apply decode_is_target in E. subst bs. vm_compute in H. discriminate.
Qed.

(** The decoder marks ill-formed input: text decoded from bytes that are
    not valid UTF-8 holds U+FFFD. *)
Lemma invalid_utf8_replaced_upto (n : nat) :
  forall bs : list byte,
  (length bs <= n)%nat -> valid_utf8 bs = false ->
  In REPLACEMENT (decode_utf8_replace bs).
Proof.
  induction n as [|n IH]; intros [|b0 r0] Hlen; try discriminate;
    cbn [length] in Hlen; [lia|].
  cbn [valid_utf8 decode_utf8_replace]. cbv zeta.
  repeat match goal with
  | |- context [if ?c then _ else _] => destruct c eqn:?
  | |- context [match ?l with [] => _ | _ :: _ => _ end] => destruct l
  end;
  cbn [andb]; intros H;
  first [ discriminate H
        | left; reflexivity
        | right; apply IH; [cbn [length] in *; lia | exact H] ].
Qed.

Lemma invalid_utf8_replaced (bs : list byte) :
  valid_utf8 bs = false -> In REPLACEMENT (decode_utf8_replace bs).
Proof. apply (invalid_utf8_replaced_upto (length bs)). lia. Qed.

(** ** Framed modules *)

Lemma slice_skipn_join (data : list byte) (a b : N) :
  a <= b ->
  slice data a b ++ skipn (N.to_nat b) data = skipn (N.to_nat a) data.
Proof.
  intros H. unfold slice.
  replace (N.to_nat b) with (N.to_nat (b - a) + N.to_nat a)%nat by lia.
  rewrite <- skipn_skipn. apply firstn_skipn.
Qed.

Lemma len_slice (data : list byte) (a b : N) :
  a <= b -> b <= len data -> len (slice data a b) = b - a.
Proof.
  intros Hab Hb. unfold slice, len in *.
  rewrite length_firstn, length_skipn. lia.
Qed.

(** What [sections_from] establishes for the first section. *)
Lemma sections_from_cons (fuel : nat) (data : list byte) (p : N)
    (s : section) (rest : list section) :
  sections_from fuel data p = Some (s :: rest) ->
  exists fuel',
    fuel = S fuel' /\
    sec_start s = p /\
    index data p = Ret (sec_id s) /\
    read_leb128 data (p + 1) = Ret (payload_size s, size_len s) /\
    sec_end s <= len data /\
    sections_from fuel' data (sec_end s) = Some rest.
Proof.
  destruct fuel as [|fuel]; cbn [sections_from];
    destruct (p =? len data); try discriminate.
  destruct (index data p) as [id| |]; try discriminate.
  destruct (read_leb128 data (p + 1)) as [[size l]| |]; try discriminate.
  cbv zeta. destruct (sec_end _ <=? len data) eqn:Hend; [|discriminate].
  destruct (sections_from fuel data _) as [rest'|] eqn:Hrest; [|discriminate].
  intros [= <- <-]. apply N.leb_le in Hend.
  exists fuel. repeat split; assumption.
Qed.

Lemma sections_from_nil (fuel : nat) (data : list byte) (p : N) :
  sections_from fuel data p = Some [] -> p = len data.
Proof.
  destruct fuel as [|fuel]; cbn [sections_from];
    destruct (p =? len data) eqn:E; try discriminate;
    try (intros _; now apply N.eqb_eq).
  destruct (index data p) as [id| |]; try discriminate.
  destruct (read_leb128 data (p + 1)) as [[size l]| |]; try discriminate.
  cbv zeta. destruct (sec_end _ <=? len data); [|discriminate].
  destruct (sections_from fuel data _); discriminate.
Qed.

Lemma section_span_positive (s : section) : sec_end s = sec_start s + span_len s.
Proof. unfold sec_end, payload_start, span_len. lia. Qed.

(** The spans of the sections tile the buffer from [p] to its end. *)
Lemma sections_from_tile (fuel : nat) (data : list byte) :
  forall (p : N) (secs : list section),
  sections_from fuel data p = Some secs ->
  p <= len data /\
  concat (map (span data) secs) = skipn (N.to_nat p) data /\
  Forall (fun s => len (span data s) = span_len s) secs.
Proof.
  induction fuel as [|fuel IH]; intros p [|s rest] H.
  1,3: apply sections_from_nil in H; subst p; split; [lia|]; split;
       [|constructor]; cbn [map concat]; symmetry; apply skipn_all2;
       unfold len; lia.
  - apply sections_from_cons in H as (f & Hf & _). discriminate.
  - apply sections_from_cons in H as (f & [= <-] & Hs & Hid & Hsz & Hend & Hrest).
    apply IH in Hrest as (Hle & Htile & Hall).
    pose proof (section_span_positive s) as Hsp.
    split; [lia|]. split.
    + cbn [map concat]. rewrite Htile. unfold span. rewrite Hs.
      apply slice_skipn_join. lia.
    + constructor; [|assumption]. unfold span.
      rewrite len_slice by lia. lia.
Qed.

Lemma sections_header (data : list byte) (secs : list section) :
  sections data = Some secs ->
  8 <= len data /\
  data = slice data 0 8 ++ concat (map (span data) secs).
Proof.
  intros H. apply sections_from_tile in H as (Hle & Htile & _).
  split; [assumption|]. rewrite Htile, slice_0.
  symmetry. apply firstn_skipn.
Qed.

Lemma kept_all (data : list byte) (secs : list section) :
  existsb (is_target data) secs = false -> kept data secs = secs.
Proof.
  induction secs as [|s rest IH]; [reflexivity|]. cbn [existsb].
  intros H. apply orb_false_elim in H as [Hs Hrest].
  rewrite kept_cons, Hs, IH by assumption. reflexivity.
Qed.

Lemma removed_none (data : list byte) (secs : list section) :
  existsb (is_target data) secs = false -> removed data secs = [].
Proof.
  induction secs as [|s rest IH]; [reflexivity|]. cbn [existsb].
  intros H. apply orb_false_elim in H as [Hs Hrest].
  rewrite removed_cons, Hs, IH by assumption. reflexivity.
Qed.

Lemma kept_app (data : list byte) (a b : list section) :
  kept data (a ++ b) = kept data a ++ kept data b.
Proof. apply filter_app. Qed.

Lemma total_span_len_cons (s : section) (rest : list section) :
  total_span_len (s :: rest) = span_len s + total_span_len rest.
Proof. reflexivity. Qed.

Lemma total_span_len_split (data : list byte) (secs : list section) :
  total_span_len (kept data secs) + total_span_len (removed data secs)
  = total_span_len secs.
Proof.
  induction secs as [|s rest IH]; [reflexivity|].
  rewrite kept_cons, removed_cons.
  destruct (is_target data s); rewrite !total_span_len_cons; lia.
Qed.

Lemma len_concat_spans (data : list byte) (secs : list section) :
  Forall (fun s => len (span data s) = span_len s) secs ->
  len (concat (map (span data) secs)) = total_span_len secs.
Proof.
  induction 1 as [|s rest Hs _ IH]; [reflexivity|].
  cbn [map concat]. rewrite total_span_len_cons, len_app, Hs, IH. reflexivity.
Qed.

Lemma Forall_kept {P : section -> Prop} (data : list byte) (secs : list section) :
  Forall P secs -> Forall P (kept data secs).
Proof.
  intros H. apply Forall_forall. intros s Hs.
  apply filter_In in Hs as [Hs _]. revert s Hs. now apply Forall_forall.
Qed.

Lemma In_kept (data : list byte) (secs : list section) (s : section) :
  In s (kept data secs) <-> In s secs /\ is_target data s = false.
Proof.
  unfold kept. rewrite filter_In, negb_true_iff. reflexivity.
Qed.

Lemma In_removed (data : list byte) (secs : list section) (s : section) :
  In s (removed data secs) <-> In s secs /\ is_target data s = true.
Proof. unfold removed. apply filter_In. Qed.

(** The run of [main] on a framed module whose custom sections all have
    a readable name length. *)
Lemma main_framed (data : list byte) (secs : list section) :
  valid_magic data = true ->
  sections data = Some secs ->
  forallb (name_readable data) secs = true ->
  main data =
  Ret (mkRun (slice data 0 8 ++ concat (map (span data) (kept data secs)))
             (expected_lines data secs)).
Proof.
  intros Hmagic Hsec Hnames. rewrite main_run_from, Hmagic.
  rewrite (run_from_sections _ _ _ _ (initial data) Hsec Hnames eq_refl).
  unfold expected_lines. cbn [bind initial out stripped stderr orb app].
  reflexivity.
Qed.

(** ** Failing reads inside the loop *)

Lemma read_leb128_unterminated (data : list byte) (p : N) :
  unterminated data p = true -> read_leb128 data p = Raise IndexError.
Proof. rewrite read_leb128_scan. apply leb_scan_unterminated. Qed.

Lemma main_of_reached (data : list byte) (st : state) :
  valid_magic data = true -> reaches data st ->
  main data =
  st' <- run_from data st ;;
  Ret (mkRun (out st')
             (if stripped st' then stderr st'
              else stderr st' ++ [WarningNotFound])).
Proof.
  intros Hmagic Hreach. rewrite main_run_from, Hmagic.
  rewrite (reaches_run_from _ _ Hreach). reflexivity.
Qed.

Lemma main_body_raises_main (data : list byte) (st : state) (e : exn) :
  valid_magic data = true -> reaches data st -> pos st < len data ->
  main_body data st = Raise e ->
  main data = Raise IndexError.
Proof.
  intros Hmagic Hreach Hlt Hbody.
  rewrite (main_of_reached _ _ Hmagic Hreach), run_from_unfold.
  apply N.ltb_lt in Hlt. rewrite Hlt, Hbody.
  apply main_body_Raise in Hbody as ->. reflexivity.
Qed.

Lemma output_file_Raise (data : list byte) (e : exn) :
  main data = Raise e -> output_file data = None.
Proof. unfold output_file. intros ->. reflexivity. Qed.

Lemma main_body_size_unreadable (data : list byte) (st : state) (e : exn) :
  pos st < len data ->
  read_leb128 data (pos st + 1) = Raise e ->
  main_body data st = Raise e.
Proof.
  intros Hlt Hsz. unfold main_body.
  destruct (index_lt_Ret _ _ Hlt) as (id & -> & _).
  cbn [bind]. rewrite Hsz. reflexivity.
Qed.

Lemma main_body_name_unreadable (data : list byte) (st : state)
    (size l : N) (e : exn) :
  index data (pos st) = Ret 0 ->
  read_leb128 data (pos st + 1) = Ret (size, l) ->
  read_leb128 data (pos st + 1 + l) = Raise e ->
  main_body data st = Raise e.
Proof.
  intros Hid Hsz Hnm. unfold main_body.
  rewrite Hid. cbn [bind]. rewrite Hsz. cbn [bind N.eqb]. rewrite Hnm.
  reflexivity.
Qed.

Lemma run_from_at_end (data : list byte) (st : state) :
  len data <= pos st -> run_from data st = Ret st.
Proof.
  intros H. rewrite run_from_unfold. apply N.ltb_ge in H. rewrite H.
  reflexivity.
Qed.

Lemma main_loop_at_end (fuel : nat) (data : list byte) (st : state) :
  len data <= pos st -> main_loop fuel data st = Ret st.
Proof.
  intros H. apply N.ltb_ge in H. destruct fuel; simpl; rewrite H; reflexivity.
Qed.

(** The last iteration on a section that declares more payload than the
    buffer holds. *)
Lemma run_from_truncated (data : list byte) (st : state) (id size l : N) :
  index data (pos st) = Ret id ->
  read_leb128 data (pos st + 1) = Ret (size, l) ->
  len data < pos st + 1 + l + size ->
  name_readable data (mkSection (pos st) id l size) = true ->
  run_from data st =
  Ret (if is_target data (mkSection (pos st) id l size)
       then mkState (pos st + 1 + l + size) (out st) true
                    (stderr st ++ [Stripped (1 + l + size)])
       else mkState (pos st + 1 + l + size)
                    (out st ++ skipn (N.to_nat (pos st)) data)
                    (stripped st) (stderr st)).
Proof.
  intros Hid Hsz Hover Hnm.
  pose proof (index_Ret_lt _ _ _ Hid) as Hlt.
  rewrite run_from_unfold. apply N.ltb_lt in Hlt. rewrite Hlt.
  rewrite (main_body_section _ _ _ _ _ Hid Hsz Hnm). cbn [bind].
  unfold after_section, span, span_len, sec_end, payload_start.
  cbn [sec_start size_len payload_size].
  destruct (is_target data _).
  - rewrite run_from_at_end by (simpl; lia). reflexivity.
  - rewrite run_from_at_end by (simpl; lia).
    rewrite slice_to_end by lia. reflexivity.
Qed.

(** ** Reads inside a window of the buffer

    When [data[a:]] starts with the bytes [w], whatever is read inside
    [w] is the same in every buffer that holds [w]. *)

Section Window.
Variables (d w post : list byte) (a : N).
Hypothesis Hwin : skipn (N.to_nat a) d = w ++ post.

Lemma skipn_window (q : N) :
  q <= len w ->
  skipn (N.to_nat (a + q)) d = skipn (N.to_nat q) w ++ post.
Proof.
  intros Hq.
  replace (N.to_nat (a + q)) with (N.to_nat q + N.to_nat a)%nat by lia.
  rewrite <- skipn_skipn, Hwin, skipn_app.
  replace (N.to_nat q - length w)%nat with 0%nat by (unfold len in Hq; lia).
  reflexivity.
Qed.

Lemma index_window (q : N) :
  q < len w -> index d (a + q) = index w q.
Proof.
  intros Hq. rewrite !index_skipn, skipn_window by lia.
  destruct (skipn (N.to_nat q) w) eqn:E; [|reflexivity].
  apply skipn_all_iff in E. unfold len in Hq. lia.
Qed.

Lemma read_window_out (q v n : N) :
  read_leb128 w q = Ret (v, n) -> read_leb128 d (a + q) = Ret (v, n).
Proof.
  intros H. pose proof (read_leb128_consumed _ _ _ _ H) as [_ Hn].
  rewrite read_leb128_scan in *. rewrite skipn_window by lia.
  apply leb_scan_app, H.
Qed.

Lemma read_window_in (q v n : N) :
  read_leb128 d (a + q) = Ret (v, n) -> q + n <= len w ->
  read_leb128 w q = Ret (v, n).
Proof.
  intros H Hn. rewrite read_leb128_scan in *.
  rewrite skipn_window in H by lia.
  apply leb_scan_firstn in H. rewrite N.sub_0_r, firstn_app in H.
  replace (N.to_nat n - length (skipn (N.to_nat q) w))%nat with 0%nat in H
    by (rewrite length_skipn; unfold len in Hn; lia).
  rewrite firstn_0, app_nil_r in H.
  rewrite <- (firstn_skipn (N.to_nat n) (skipn (N.to_nat q) w)).
  apply leb_scan_app, H.
Qed.

Lemma slice_window (q1 q2 : N) :
  q1 <= q2 -> q2 <= len w ->
  slice d (a + q1) (a + q2) = slice w q1 q2.
Proof.
  intros H12 H2. unfold slice. rewrite skipn_window by lia.
  replace (a + q2 - (a + q1)) with (q2 - q1) by lia.
  rewrite firstn_app.
  replace (N.to_nat (q2 - q1) - length (skipn (N.to_nat q1) w))%nat
    with 0%nat by (rewrite length_skipn; unfold len in H2; lia).
  rewrite firstn_0, app_nil_r. reflexivity.
Qed.
End Window.

Lemma read_transfer (d d' w post post' : list byte) (a a' q q' v n : N) :
  skipn (N.to_nat a) d = w ++ post ->
  skipn (N.to_nat a') d' = w ++ post' ->
  q' + a = q + a' ->
  a <= q ->
  read_leb128 d q = Ret (v, n) -> q - a + n <= len w ->
  read_leb128 d' q' = Ret (v, n).
Proof.
  intros Hw Hw' Hq Ha H Hn.
  replace q' with (a' + (q - a)) by lia.
  apply (read_window_out d' w post' a' Hw').
  apply (read_window_in d w post a Hw); [|exact Hn].
  replace (a + (q - a)) with q by lia. exact H.
Qed.

Lemma slice_transfer (d d' w post post' : list byte) (a a' q1 q2 q1' q2' : N) :
  skipn (N.to_nat a) d = w ++ post ->
  skipn (N.to_nat a') d' = w ++ post' ->
  q1' + a = q1 + a' -> q2' + a = q2 + a' ->
  a <= q1 -> q1 <= q2 -> q2 - a <= len w ->
  slice d' q1' q2' = slice d q1 q2.
Proof.
  intros Hw Hw' H1 H2 Ha H12 Hn.
  replace q1' with (a' + (q1 - a)) by lia.
  replace q2' with (a' + (q2 - a)) by lia.
  rewrite (slice_window d' w post' a' Hw') by lia.
  replace q1 with (a + (q1 - a)) at 2 by lia.
  replace q2 with (a + (q2 - a)) at 2 by lia.
  rewrite (slice_window d w post a Hw) by lia. reflexivity.
Qed.

(** A framed section whose name field lies within its payload reads the
    same wherever its span sits. *)
Lemma section_transfer (d d' w post post' : list byte) (a a' : N) (s : section) :
  skipn (N.to_nat a) d = w ++ post ->
  skipn (N.to_nat a') d' = w ++ post' ->
  len w = span_len s ->
  sec_start s = a ->
  index d a = Ret (sec_id s) ->
  read_leb128 d (a + 1) = Ret (payload_size s, size_len s) ->
  name_in_payload d s = true ->
  let s' := mkSection a' (sec_id s) (size_len s) (payload_size s) in
  index d' a' = Ret (sec_id s) /\
  read_leb128 d' (a' + 1) = Ret (payload_size s, size_len s) /\
  name_in_payload d' s' = true /\
  is_target d' s' = is_target d s /\
  span d' s' = w.
Proof.
  intros Hw Hw' Hlen Hstart Hid Hsz Hname s'. subst s'.
  unfold span_len in Hlen.
  pose proof (read_leb128_consumed _ _ _ _ Hsz) as [Hl _].
  assert (Hid' : index d' a' = Ret (sec_id s)).
  { rewrite <- (N.add_0_r a'), (index_window d' w post' a' Hw') by lia.
    rewrite <- (index_window d w post a Hw), N.add_0_r by lia. exact Hid. }
  assert (Hsz' : read_leb128 d' (a' + 1) = Ret (payload_size s, size_len s)).
  { apply (read_transfer d d' w post post' a a' (a + 1) _ _ _ Hw Hw');
      [lia | lia | exact Hsz | lia]. }
  assert (Hspan : span d' (mkSection a' (sec_id s) (size_len s) (payload_size s))
                  = w).
  { unfold span, sec_end, payload_start. cbn [sec_start size_len payload_size].
    apply (slice_skipn_app _ _ _ _ _ Hw'). lia. }
  repeat split; try assumption.
  - unfold name_in_payload, is_custom, payload_start in *.
    cbn [sec_start sec_id size_len payload_size]. rewrite Hstart in Hname.
    destruct (sec_id s =? 0); [|reflexivity]. cbn [negb orb] in *.
    destruct (read_leb128 d (a + 1 + size_len s)) as [[nl nll]| |] eqn:Hnm;
      try discriminate.
    apply N.leb_le in Hname.
    rewrite (read_transfer d d' w post post' a a'
               (a + 1 + size_len s) (a' + 1 + size_len s) nl nll
               Hw Hw' ltac:(lia) ltac:(lia) Hnm ltac:(lia)).
    apply N.leb_le. lia.
  - unfold is_target, name_of, name_in_payload, is_custom, payload_start in *.
    cbn [sec_start sec_id size_len payload_size]. rewrite Hstart in *.
    destruct (sec_id s =? 0); [|reflexivity]. cbn [negb orb andb] in *.
    destruct (read_leb128 d (a + 1 + size_len s)) as [[nl nll]| |] eqn:Hnm;
      try discriminate.
    apply N.leb_le in Hname.
    rewrite (read_transfer d d' w post post' a a'
               (a + 1 + size_len s) (a' + 1 + size_len s) nl nll
               Hw Hw' ltac:(lia) ltac:(lia) Hnm ltac:(lia)).
    cbn [bind].
    rewrite (slice_transfer d d' w post post' a a'
               (a + 1 + size_len s + nll) (a + 1 + size_len s + nll + nl)
               _ _ Hw Hw') by lia.
    reflexivity.
Qed.

(** ** The output of a run is itself a framed module *)

Lemma sections_from_mono (f : nat) (d : list byte) :
  forall (f' : nat) (p : N) (secs : list section),
  sections_from f d p = Some secs -> (f <= f')%nat ->
  sections_from f' d p = Some secs.
Proof.
  induction f as [|f IH]; intros f' p secs H Hle.
  - cbn [sections_from] in H. destruct (p =? len d) eqn:E; [|discriminate].
    destruct f'; cbn [sections_from]; rewrite E; exact H.
  - destruct f' as [|f']; [lia|]. cbn [sections_from] in *.
    destruct (p =? len d); [exact H|].
    destruct (index d p) as [id| |]; try discriminate.
    destruct (read_leb128 d (p + 1)) as [[size l]| |]; try discriminate.
    cbv zeta in *. destruct (sec_end _ <=? len d); [|discriminate].
    destruct (sections_from f d _) as [rest|] eqn:Hrest; [|discriminate].
    rewrite (IH f' _ _ Hrest) by lia. exact H.
Qed.

Lemma sections_from_count (f : nat) (d : list byte) :
  forall (p : N) (secs : list section),
  sections_from f d p = Some secs ->
  p + 2 * N.of_nat (length secs) <= len d.
Proof.
  induction f as [|f IH]; intros p [|s rest] H.
  1,3: apply sections_from_nil in H; simpl; lia.
  - apply sections_from_cons in H as (f' & Hf & _). discriminate.
  - apply sections_from_cons in H as (f' & [= <-] & Hs & _ & Hsz & _ & Hrest).
    apply IH in Hrest. apply read_leb128_consumed in Hsz as [Hl _].
    pose proof (section_span_positive s). unfold span_len in *.
    cbn [length]. lia.
Qed.

Lemma sections_from_minimal (f : nat) (d : list byte) :
  forall (p : N) (secs : list section),
  sections_from f d p = Some secs ->
  sections_from (length secs) d p = Some secs.
Proof.
  induction f as [|f IH]; intros p [|s rest] H.
  1,3: apply sections_from_nil in H; subst p; cbn; rewrite N.eqb_refl;
       reflexivity.
  - apply sections_from_cons in H as (f' & Hf & _). discriminate.
  - pose proof H as H0.
    apply sections_from_cons in H as (f' & [= <-] & Hs & Hid & Hsz & Hend & Hrest).
    apply IH in Hrest. cbn [length sections_from] in *.
    destruct (p =? len d); [discriminate|].
    rewrite Hid, Hsz in *. cbv zeta in *.
    destruct s as [st id l sz]; cbn [sec_id size_len payload_size sec_start] in *.
    subst st.
    destruct (sec_end _ <=? len d); [|discriminate].
    rewrite Hrest. reflexivity.
Qed.

(** The fuel given to [sections] never limits the walk. *)
Lemma sections_fuel_irrelevant (f : nat) (d : list byte) (secs : list section) :
  sections_from f d 8 = Some secs -> sections d = Some secs.
Proof.
  intros H. apply sections_from_minimal in H.
  unfold sections. apply (sections_from_mono _ _ _ _ _ H).
  apply sections_from_count in H. unfold len in H. lia.
Qed.

Lemma skipn_len_app (pre rest : list byte) :
  skipn (N.to_nat (len pre)) (pre ++ rest) = rest.
Proof.
  unfold len. rewrite Nat2N.id, skipn_app, skipn_all, Nat.sub_diag.
  reflexivity.
Qed.

Lemma sections_relocate (d : list byte) (secs : list section) :
  forall (f : nat) (p : N) (pre' : list byte),
  sections_from f d p = Some secs ->
  forallb (name_in_payload d) secs = true ->
  let d' := pre' ++ concat (map (span d) (kept d secs)) in
  let secs' := relocate (len pre') (kept d secs) in
  sections_from (length secs') d' (len pre') = Some secs' /\
  forallb (name_in_payload d') secs' = true /\
  existsb (is_target d') secs' = false.
Proof.
  induction secs as [|s rest IH]; intros f p pre' Hsec Hnames.
  - cbn. rewrite app_nil_r, N.eqb_refl. auto.
  - pose proof (sections_from_tile _ _ _ _ Hsec) as (_ & Htile & Hall).
    apply sections_from_cons in Hsec
      as (f' & -> & Hstart & Hid & Hsz & Hend & Hrest).
    cbn [forallb] in Hnames. apply andb_prop in Hnames as [Hname Hnames].
    rewrite kept_cons. destruct (is_target d s) eqn:Htarget.
    + apply (IH f' _ pre' Hrest Hnames).
    + inversion Hall as [|? ? Hlen _]; subst.
      cbn [map concat relocate length].
      specialize (IH f' _ (pre' ++ span d s) Hrest Hnames).
      cbv zeta in IH. rewrite <- app_assoc, len_app, Hlen in IH.
      destruct IH as (IHsec & IHnames & IHtarget).
      cbn [map concat] in Htile.
      destruct (section_transfer d
                  (pre' ++ span d s ++ concat (map (span d) (kept d rest)))
                  (span d s) _ _ (sec_start s) (len pre') s
                  (eq_sym Htile) (skipn_len_app _ _) Hlen eq_refl Hid Hsz Hname)
        as (Hid' & Hsz' & Hname' & Htarget' & Hspan').
      set (d' := pre' ++ span d s ++ concat (map (span d) (kept d rest))) in *.
      set (s' := mkSection (len pre') (sec_id s) (size_len s) (payload_size s)) in *.
      assert (Hend' : sec_end s' = len pre' + span_len s)
        by (unfold s', sec_end, payload_start, span_len;
            cbn [sec_start size_len payload_size]; lia).
      pose proof (sections_from_tile _ _ _ _ IHsec) as (Hle' & _).
      repeat split.
      * cbn [sections_from].
        pose proof (read_leb128_consumed _ _ _ _ Hsz) as [Hl _].
        unfold span_len in *.
        assert (E : (len pre' =? len d') = false) by (apply N.eqb_neq; lia).
        rewrite E, Hid', Hsz'. cbv zeta. fold s'. rewrite Hend'.
        assert (E' : (len pre' + (1 + size_len s + payload_size s) <=? len d') = true)
          by (apply N.leb_le; lia).
        unfold span_len. rewrite E', IHsec. reflexivity.
      * cbn [forallb]. rewrite Hname', IHnames. reflexivity.
      * cbn [existsb]. rewrite Htarget', Htarget, IHtarget. reflexivity.
Qed.

Lemma name_in_payload_readable (d : list byte) (secs : list section) :
  forallb (name_in_payload d) secs = true ->
  forallb (name_readable d) secs = true.
Proof.
  rewrite !forallb_forall. intros H s Hs. specialize (H s Hs).
  unfold name_in_payload, name_readable in *.
  destruct (negb (is_custom s)); [reflexivity|]. cbn [orb] in *.
  destruct (read_leb128 d (payload_start s)) as [[nl nll]| |];
    [reflexivity | discriminate | discriminate].
Qed.

(** A framed module without a "target_features" section passes through
    unchanged, with the warning. *)
Lemma main_nothing_to_strip (data : list byte) (secs : list section) :
  valid_magic data = true ->
  sections data = Some secs ->
  forallb (name_readable data) secs = true ->
  existsb (is_target data) secs = false ->
  main data = Ret (mkRun data [WarningNotFound]).
Proof.
  intros Hmagic Hsec Hnames Hnone.
  rewrite (main_framed _ _ Hmagic Hsec Hnames).
  unfold expected_lines, stripped_lines.
  rewrite Hnone, kept_all, removed_none by assumption.
  apply sections_header in Hsec as [_ <-]. reflexivity.
Qed.

Lemma valid_magic_output (data rest : list byte) :
  8 <= len data -> valid_magic (slice data 0 8 ++ rest) = valid_magic data.
Proof.
  intros H. unfold valid_magic. f_equal. rewrite !slice_0.
  rewrite firstn_app, firstn_firstn, length_firstn.
  unfold len in H.
  replace (N.to_nat 4 - Init.Nat.min (N.to_nat 8) (length data))%nat
    with 0%nat by lia.
  rewrite firstn_0, app_nil_r. f_equal.
Qed.

Lemma main_twice (data : list byte) (secs : list section) :
  valid_magic data = true ->
  sections data = Some secs ->
  forallb (name_in_payload data) secs = true ->
  exists r,
    main data = Ret r /\
    written r = slice data 0 8 ++ concat (map (span data) (kept data secs)) /\
    main (written r) = Ret (mkRun (written r) [WarningNotFound]).
Proof.
  intros Hmagic Hsec Hnames.
  pose proof (name_in_payload_readable _ _ Hnames) as Hread.
  eexists. split; [apply (main_framed _ _ Hmagic Hsec Hread)|].
  cbn [written]. split; [reflexivity|].
  pose proof (sections_header _ _ Hsec) as [H8 _].
  assert (Hlen8 : len (slice data 0 8) = 8) by (rewrite len_slice; lia).
  destruct (sections_relocate data secs _ _ (slice data 0 8) Hsec Hnames)
    as (Hsec' & Hnames' & Hnone').
  cbv zeta in *. rewrite Hlen8 in *.
  set (out1 := slice data 0 8 ++ concat (map (span data) (kept data secs))) in *.
  set (secs' := relocate 8 (kept data secs)) in *.
  apply (main_nothing_to_strip out1 secs').
  - unfold out1. rewrite valid_magic_output by assumption. exact Hmagic.
  - unfold sections. apply (sections_from_mono _ _ _ _ _ Hsec').
    apply sections_from_count in Hsec'. unfold len in Hsec'. lia.
  - apply name_in_payload_readable, Hnames'.
  - exact Hnone'.
Qed.

(** * The varint reader *)

Lemma index_in_suffix (data : list byte) (offset i t : N) :
  offset <= i -> index data i = Ret t ->
  exists b, nth_error (skipn (N.to_nat offset) data) (N.to_nat (i - offset))
            = Some b /\ Byte.to_N b = t.
Proof.
  intros Hle. unfold index. rewrite nth_error_skipn.
  replace (N.to_nat offset + N.to_nat (i - offset))%nat with (N.to_nat i) by lia.
  destruct (nth_error data (N.to_nat i)) as [b|]; [|discriminate].
  intros [= <-]. eauto.
Qed.

Lemma forallb_nth_error {A : Type} (f : A -> bool) (l : list A) (n : nat) (x : A) :
  forallb f l = true -> nth_error l n = Some x -> f x = true.
Proof.
  intros H Hn. apply nth_error_In in Hn.
  rewrite forallb_forall in H. apply H, Hn.
Qed.

(** C5. When a byte with the high bit clear occurs at or after [offset],
    [read_leb128 data offset] returns: the value is the OR of the low 7
    bits of each byte read, shifted left by 7 times the byte's index; the
    bytes read are those up to and including the first one whose high
    bit is clear; the second component is the number of bytes read,
    which is at least 1. *)
Theorem read_leb128_decodes (data : list byte) (offset i t : N) :
  offset <= i -> index data i = Ret t -> N.land t 0x80 = 0 ->
  exists n,
    read_leb128 data offset
      = Ret (leb_value (slice data offset (offset + n)) 0, n) /\
    1 <= n /\ offset + n <= i + 1 /\
    len (slice data offset (offset + n)) = n /\
    forallb continues (slice data offset (offset + n - 1)) = true /\
    exists last, index data (offset + n - 1) = Ret last /\ N.land last 0x80 = 0.
Proof.
  intros Hle Hi Ht.
  destruct (index_in_suffix _ _ _ _ Hle Hi) as (b & Hb & Hbt).
  assert (Hex : existsb (fun b => negb (continues b))
                        (skipn (N.to_nat offset) data) = true).
  { apply existsb_exists. exists b. split; [eapply nth_error_In, Hb|].
    unfold continues. rewrite Hbt, Ht. reflexivity. }
  destruct (first_terminator _ Hex) as (pre & tb & post & Hsplit & Hpre & Htb).
  assert (Hsplit' : skipn (N.to_nat offset) data = (pre ++ [tb]) ++ post)
    by (rewrite <- app_assoc; exact Hsplit).
  assert (Hlen : len (pre ++ [tb]) = len pre + 1)
    by (rewrite len_app, len_cons, len_nil; lia).
  exists (len pre + 1). repeat split.
  - rewrite read_leb128_scan, Hsplit, leb_scan_value0 by assumption.
    rewrite (slice_skipn_app _ _ _ _ _ Hsplit') by lia. reflexivity.
  - lia.
  - destruct (N.lt_ge_cases (i - offset) (len pre)) as [Hlt|Hge]; [|lia].
    exfalso. rewrite Hsplit, nth_error_app1 in Hb by (unfold len in Hlt; lia).
    pose proof (forallb_nth_error _ _ _ _ Hpre Hb) as Hc.
    unfold continues in Hc. rewrite Hbt, Ht in Hc. discriminate.
  - rewrite (slice_skipn_app _ _ _ _ _ Hsplit') by lia. exact Hlen.
  - rewrite (slice_skipn_app data pre (tb :: post)) by (assumption || lia).
    exact Hpre.
  - exists (Byte.to_N tb). split.
    + rewrite index_skipn.
      replace (offset + (len pre + 1) - 1) with (offset + len pre) by lia.
      rewrite (skipn_add_tail _ _ _ _ Hsplit). reflexivity.
    + unfold continues in Htb. apply negb_false_iff in Htb.
      apply N.eqb_eq, Htb.
Qed.

Lemma read_leb128_decodes_witness :
  0 <= 2 /\ index ex_varint 2 = Ret 0x26 /\ N.land 0x26 0x80 = 0 /\
  exists n,
    read_leb128 ex_varint 0 = Ret (leb_value (slice ex_varint 0 (0 + n)) 0, n) /\
    1 <= n /\ 0 + n <= 2 + 1 /\
    len (slice ex_varint 0 (0 + n)) = n /\
    forallb continues (slice ex_varint 0 (0 + n - 1)) = true /\
    exists last, index ex_varint (0 + n - 1) = Ret last /\ N.land last 0x80 = 0.
Proof.
  split; [lia|]. split; [reflexivity|]. split; [reflexivity|].
  apply (read_leb128_decodes ex_varint 0 2 0x26); [lia | reflexivity | reflexivity].
Defined.

(** C4, as amended.  [read_leb128] has no cap on the bytes it reads.
    A successful read consumes at least one byte and at most the bytes
    that remain in the buffer.  Whatever the number of continuation
    bytes that stand at [offset], when a terminating byte follows them
    the read goes to that byte and returns the value of the whole run.
    The read raises IndexError exactly when no byte from [offset] to
    the end of the buffer terminates: only the end of the buffer stops
    a run.  No number bounds the bytes consumed over all buffers. *)
Theorem read_leb128_bounded_only_by_buffer (data : list byte) (offset : N) :
  (forall v n,
     read_leb128 data offset = Ret (v, n) ->
     1 <= n /\ offset + n <= len data) /\
  (forall (pre : list byte) (t : byte) (post : list byte),
     skipn (N.to_nat offset) data = pre ++ t :: post ->
     forallb continues pre = true -> continues t = false ->
     read_leb128 data offset = Ret (leb_value (pre ++ [t]) 0, len pre + 1)) /\
  (read_leb128 data offset = Raise IndexError
   <-> unterminated data offset = true) /\
  (forall bound : N,
     exists (buf : list byte) (v n : N),
       read_leb128 buf 0 = Ret (v, n) /\ bound < n).
Proof.
  split; [|split; [|split]].
  - intros v n H. exact (read_leb128_consumed _ _ _ _ H).
  - intros pre t post Hsplit Hpre Ht.
    rewrite read_leb128_scan, Hsplit. apply leb_scan_value0; assumption.
  - split.
    + rewrite read_leb128_scan. apply leb_scan_Raise_unterminated.
    + apply read_leb128_unterminated.
  - intros bound.
    exists (repeat x80 (N.to_nat bound) ++ [x00]), 0,
           (N.of_nat (N.to_nat bound) + 1).
    split; [apply read_leb128_run_of_continuations | lia].
Qed.

Lemma read_leb128_bounded_only_by_buffer_witness :
  skipn (N.to_nat 0) ex_varint = [xe5; x8e] ++ x26 :: [] /\
  forallb continues [xe5; x8e] = true /\ continues x26 = false /\
  read_leb128 ex_varint 0 = Ret (624485, 3) /\
  (1 <= 3 /\ 0 + 3 <= len ex_varint) /\
  unterminated ex_unterminated 9 = true /\
  read_leb128 ex_unterminated 9 = Raise IndexError.
Proof.
  destruct (read_leb128_bounded_only_by_buffer ex_varint 0)
    as (Hbound & Hrun & _ & _).
  destruct (read_leb128_bounded_only_by_buffer ex_unterminated 9)
    as (_ & _ & Hraise & _).
  split; [reflexivity|]. split; [reflexivity|]. split; [reflexivity|].
  split; [exact (Hrun [xe5; x8e] x26 [] eq_refl eq_refl eq_refl)|].
  split; [exact (Hbound 624485 3 eq_refl)|].
  split; [reflexivity|].
  apply Hraise. reflexivity.
Defined.

(** C4 fails as stated: six bytes are read where a 5-byte cap would
    reject, and no fixed bound holds for all buffers. *)
Lemma read_leb128_has_no_cap :
  read_leb128 [x80; x80; x80; x80; x80; x00] 0 = Ret (0, 6) /\
  ~ exists bound : N,
      forall (data : list byte) (offset v n : N),
        read_leb128 data offset = Ret (v, n) -> n <= bound.
Proof.
  split; [reflexivity|]. intros [bound H].
  specialize (H _ _ _ _ (read_leb128_run_of_continuations (N.to_nat bound))).
  lia.
Qed.

(** * Failing runs *)

(** C3. When the loop of [main] is at a section and the section's size
    varint, or the name-length varint of a custom section, has no byte
    with the continuation bit clear before the end of the buffer, the
    read raises (Python's IndexError is the error the script surfaces),
    the exception leaves [main], and no output file is written. *)
Theorem unterminated_varint_aborts (data : list byte) (st : state) (p : N) :
  valid_magic data = true ->
  reaches data st ->
  pos st < len data ->
  unterminated data p = true ->
  (p = pos st + 1 \/
   (index data (pos st) = Ret 0 /\
    exists size l,
      read_leb128 data (pos st + 1) = Ret (size, l) /\ p = pos st + 1 + l)) ->
  read_leb128 data p = Raise IndexError /\
  main data = Raise IndexError /\
  output_file data = None.
Proof.
  intros Hmagic Hreach Hlt Hunterm Hwhere.
  pose proof (read_leb128_unterminated _ _ Hunterm) as Hread.
  assert (Hbody : main_body data st = Raise IndexError).
  { destruct Hwhere as [-> | (Hid & size & l & Hsz & ->)].
    - apply main_body_size_unreadable; assumption.
    - eapply main_body_name_unreadable; eassumption. }
  pose proof (main_body_raises_main _ _ _ Hmagic Hreach Hlt Hbody) as Hmain.
  repeat split; try assumption. eapply output_file_Raise, Hmain.
Qed.

Lemma unterminated_varint_aborts_witness :
  valid_magic ex_unterminated = true /\
  reaches ex_unterminated (initial ex_unterminated) /\
  pos (initial ex_unterminated) < len ex_unterminated /\
  unterminated ex_unterminated 9 = true /\
  read_leb128 ex_unterminated 9 = Raise IndexError /\
  main ex_unterminated = Raise IndexError /\
  output_file ex_unterminated = None.
Proof.
  split; [reflexivity|]. split; [constructor|]. split; [reflexivity|].
  split; [reflexivity|].
  apply (unterminated_varint_aborts ex_unterminated (initial ex_unterminated) 9).
  - reflexivity.
  - constructor.
  - reflexivity.
  - reflexivity.
  - left. reflexivity.
Defined.

(** C2, as amended.  At a section reached by the loop of [main]:
    when the size varint runs out of bytes the run raises IndexError and
    no output file is written; a declared payload size that carries the
    section past the end of the buffer is not an error: for a section
    that is not custom, or a custom one whose name-length varint is
    readable, the bytes from the section's start to the end of the
    buffer are copied (or dropped, when the name matches) and the run
    returns with the output file written.  The loop ends as soon as the
    cursor is at or past the end of the buffer. *)
Theorem truncated_section_is_not_detected (data : list byte) (st : state) :
  valid_magic data = true ->
  reaches data st ->
  pos st < len data ->
  (forall e, read_leb128 data (pos st + 1) = Raise e ->
     main data = Raise IndexError /\ output_file data = None) /\
  (forall id size l,
     index data (pos st) = Ret id ->
     read_leb128 data (pos st + 1) = Ret (size, l) ->
     len data < pos st + 1 + l + size ->
     name_readable data (mkSection (pos st) id l size) = true ->
     output_file data =
     Some (if is_target data (mkSection (pos st) id l size)
           then out st
           else out st ++ skipn (N.to_nat (pos st)) data)) /\
  (forall fuel st', len data <= pos st' -> main_loop fuel data st' = Ret st').
Proof.
  intros Hmagic Hreach Hlt. repeat split.
  - eapply main_body_raises_main; try eassumption.
    apply main_body_size_unreadable; eassumption.
  - eapply output_file_Raise, main_body_raises_main; try eassumption.
    apply main_body_size_unreadable; eassumption.
  - intros id size l Hid Hsz Hover Hnm. unfold output_file.
    rewrite (main_of_reached _ _ Hmagic Hreach).
    rewrite (run_from_truncated _ _ _ _ _ Hid Hsz Hover Hnm).
    destruct (is_target data _); reflexivity.
  - intros fuel st'. apply main_loop_at_end.
Qed.

Lemma truncated_section_is_not_detected_witness :
  valid_magic ex_truncated = true /\
  reaches ex_truncated (initial ex_truncated) /\
  pos (initial ex_truncated) < len ex_truncated /\
  output_file ex_truncated = Some ex_truncated.
Proof.
  split; [reflexivity|]. split; [constructor|]. split; [reflexivity|].
  destruct (truncated_section_is_not_detected ex_truncated (initial ex_truncated))
    as (_ & H & _).
  - reflexivity.
  - constructor.
  - reflexivity.
  - apply (H 1 5 1); reflexivity.
Defined.

(** C2 fails as stated: a section that declares 5 payload bytes and has
    1 does not make the run fail; the module is written out unchanged. *)
Lemma truncated_section_is_written :
  valid_magic ex_truncated = true /\
  index ex_truncated 8 = Ret 1 /\
  read_leb128 ex_truncated 9 = Ret (5, 1) /\
  len ex_truncated < 8 + 1 + 1 + 5 /\
  main ex_truncated = Ret (mkRun ex_truncated [WarningNotFound]) /\
  output_file ex_truncated <> None.
Proof. repeat split; try reflexivity. discriminate. Qed.

(** * Runs on framed modules *)

(** C1, as amended.  For a module with a valid magic whose sections' declared
    spans lie within the buffer and whose custom sections all have a
    name-length varint that ends within the buffer, the run returns and
    the output is the 8-byte header followed by the full spans, verbatim
    and in their original order, of exactly the sections that are not
    custom sections named "target_features"; every such custom section
    is removed in the one pass, with one line printed for each. *)
Theorem strip_removes_exactly_the_target_sections
    (data : list byte) (secs : list section) :
  valid_magic data = true ->
  sections data = Some secs ->
  forallb (name_readable data) secs = true ->
  exists r,
    main data = Ret r /\
    written r = slice data 0 8 ++ concat (map (span data) (kept data secs)) /\
    printed r = expected_lines data secs /\
    (forall s, In s (kept data secs) <-> In s secs /\ is_target data s = false) /\
    (forall s, In s (removed data secs) <-> In s secs /\ is_target data s = true).
Proof.
  intros Hmagic Hsec Hnames. eexists.
  split; [apply (main_framed _ _ Hmagic Hsec Hnames)|].
  cbn [written printed]. split; [reflexivity|]. split; [reflexivity|].
  split; intros s; [apply In_kept | apply In_removed].
Qed.

Lemma strip_removes_exactly_the_target_sections_witness :
  valid_magic ex_multi = true /\
  exists r,
    main ex_multi = Ret r /\
    written r = header ++ other_section ++ type_section /\
    printed r = [Stripped 18; Stripped 18; Stripped 18].
Proof.
  split; [reflexivity|].
  destruct (strip_removes_exactly_the_target_sections ex_multi
              [mkSection 8 0 1 16; mkSection 26 0 1 7; mkSection 35 0 1 16;
               mkSection 53 1 1 2; mkSection 57 0 1 16])
    as (r & Hr & Hw & Hp & _); try reflexivity.
  exists r. split; [exact Hr|]. split; [exact Hw | exact Hp].
Defined.

(** C1 fails as stated: a module with a valid magic whose one section, a
    custom section with an empty payload, lies within the buffer makes
    the run raise. *)
Lemma framed_module_can_abort :
  valid_magic ex_empty_custom_last = true /\
  sections ex_empty_custom_last = Some [mkSection 8 0 1 0] /\
  main ex_empty_custom_last = Raise IndexError /\
  ~ (forall data secs,
       valid_magic data = true -> sections data = Some secs ->
       exists r,
         main data = Ret r /\
         written r = slice data 0 8 ++ concat (map (span data) (kept data secs))).
Proof.
  repeat split; try reflexivity. intros H.
  destruct (H ex_empty_custom_last [mkSection 8 0 1 0] eq_refl eq_refl)
    as (r & Hr & _).
  discriminate.
Qed.

(** C6, as amended.  For a module with a valid magic whose sections' declared
    spans lie within the buffer, whose custom sections all have a
    name-length varint that ends within the buffer, and none of whose
    custom sections is named "target_features", the run returns, the
    output is the input byte for byte, and the only line printed is the
    warning. *)
Theorem strip_absent_name_is_identity (data : list byte) (secs : list section) :
  valid_magic data = true ->
  sections data = Some secs ->
  forallb (name_readable data) secs = true ->
  existsb (is_target data) secs = false ->
  main data = Ret (mkRun data [WarningNotFound]) /\
  output_file data = Some data /\
  removed data secs = [].
Proof.
  intros Hmagic Hsec Hnames Hnone.
  pose proof (main_nothing_to_strip _ _ Hmagic Hsec Hnames Hnone) as Hmain.
  repeat split.
  - exact Hmain.
  - unfold output_file. rewrite Hmain. reflexivity.
  - apply removed_none, Hnone.
Qed.

Lemma strip_absent_name_is_identity_witness :
  valid_magic ex_absent = true /\
  sections ex_absent = Some [mkSection 8 0 1 7; mkSection 17 1 1 2] /\
  main ex_absent = Ret (mkRun ex_absent [WarningNotFound]) /\
  output_file ex_absent = Some ex_absent /\
  removed ex_absent [mkSection 8 0 1 7; mkSection 17 1 1 2] = [].
Proof.
  split; [reflexivity|]. split; [reflexivity|].
  apply (strip_absent_name_is_identity ex_absent); reflexivity.
Defined.

(** C6 fails as stated: the module below has a valid magic, its one
    section lies within the buffer and is not named "target_features",
    and the run raises instead of writing the input back. *)
Lemma absent_name_can_abort :
  valid_magic ex_empty_custom_last = true /\
  sections ex_empty_custom_last = Some [mkSection 8 0 1 0] /\
  existsb (is_target ex_empty_custom_last) [mkSection 8 0 1 0] = false /\
  output_file ex_empty_custom_last = None /\
  ~ (forall data secs,
       valid_magic data = true -> sections data = Some secs ->
       existsb (is_target data) secs = false ->
       main data = Ret (mkRun data [WarningNotFound])).
Proof.
  repeat split; try reflexivity. intros H.
  specialize (H ex_empty_custom_last [mkSection 8 0 1 0] eq_refl eq_refl eq_refl).
  discriminate.
Qed.

(** C8, as amended.  For a module with a valid magic whose sections' declared
    spans lie within the buffer and whose custom sections all have a
    name-length varint that ends within the buffer, the length of the
    output is the length of the input minus the sum, over the removed
    sections, of the length of the full span: id byte, size field and
    payload. *)
Theorem output_length_is_input_minus_removed
    (data : list byte) (secs : list section) :
  valid_magic data = true ->
  sections data = Some secs ->
  forallb (name_readable data) secs = true ->
  exists r,
    main data = Ret r /\
    len (written r) = len data - total_span_len (removed data secs) /\
    total_span_len (removed data secs) <= len data /\
    Forall (fun s => len (span data s) = 1 + size_len s + payload_size s)
           (removed data secs).
Proof.
  intros Hmagic Hsec Hnames. eexists.
  split; [apply (main_framed _ _ Hmagic Hsec Hnames)|]. cbn [written].
  pose proof (sections_header _ _ Hsec) as [H8 Hdata].
  pose proof (sections_from_tile _ _ _ _ Hsec) as (_ & _ & Hall).
  assert (Hlen : len data = 8 + total_span_len secs).
  { rewrite Hdata at 1. rewrite len_app, len_slice, len_concat_spans by
      (assumption || lia). lia. }
  pose proof (total_span_len_split data secs) as Hsplit.
  rewrite len_app, len_slice, len_concat_spans by
    (try apply Forall_kept; assumption || lia).
  repeat split; try lia.
  apply Forall_forall. intros s Hs. apply filter_In in Hs as [Hs _].
  rewrite Forall_forall in Hall. apply (Hall s Hs).
Qed.

Lemma output_length_is_input_minus_removed_witness :
  valid_magic ex_multi = true /\
  exists r,
    main ex_multi = Ret r /\
    len (written r) = len ex_multi - (18 + 18 + 18).
Proof.
  split; [reflexivity|].
  destruct (output_length_is_input_minus_removed ex_multi
              [mkSection 8 0 1 16; mkSection 26 0 1 7; mkSection 35 0 1 16;
               mkSection 53 1 1 2; mkSection 57 0 1 16])
    as (r & Hr & Hlen & _); try reflexivity.
  exists r. split; [exact Hr | exact Hlen].
Defined.

(** C8 fails as stated: for the module below, framed within its buffer,
    the run raises and there is no output whose length could be
    compared. *)
Lemma no_output_to_measure :
  valid_magic ex_empty_custom_last = true /\
  sections ex_empty_custom_last = Some [mkSection 8 0 1 0] /\
  output_file ex_empty_custom_last = None /\
  ~ (forall data secs,
       valid_magic data = true -> sections data = Some secs ->
       exists out,
         output_file data = Some out /\
         len out = len data - total_span_len (removed data secs)).
Proof.
  repeat split; try reflexivity. intros H.
  destruct (H ex_empty_custom_last [mkSection 8 0 1 0] eq_refl eq_refl)
    as (o & Ho & _).
  discriminate.
Qed.

(** C7, as amended.  For a module with a valid magic whose sections' declared
    spans lie within the buffer and whose custom sections all have
    their name field (length varint and name bytes) inside their own
    payload, a second run on the output of the first returns the same
    bytes and removes nothing. *)
Theorem strip_is_idempotent (data : list byte) (secs : list section) :
  valid_magic data = true ->
  sections data = Some secs ->
  forallb (name_in_payload data) secs = true ->
  exists r,
    main data = Ret r /\
    main (written r) = Ret (mkRun (written r) [WarningNotFound]).
Proof.
  intros Hmagic Hsec Hnames.
  destruct (main_twice _ _ Hmagic Hsec Hnames) as (r & Hr & _ & Hsecond).
  exists r. split; assumption.
Qed.

Lemma strip_is_idempotent_witness :
  valid_magic ex_multi = true /\
  exists r,
    main ex_multi = Ret r /\
    main (written r) = Ret (mkRun (written r) [WarningNotFound]).
Proof.
  split; [reflexivity|].
  apply (strip_is_idempotent ex_multi
           [mkSection 8 0 1 16; mkSection 26 0 1 7; mkSection 35 0 1 16;
            mkSection 53 1 1 2; mkSection 57 0 1 16]); reflexivity.
Defined.

(** C7 fails as stated: in the module below every section lies within
    the buffer; the first run removes the "target_features" section and
    keeps the empty custom section before it; in the output that empty
    custom section is followed by bytes that read as the name
    "target_features", and the second run removes it. *)
Lemma second_run_removes_more :
  valid_magic ex_not_idempotent = true /\
  sections ex_not_idempotent
    = Some [mkSection 8 0 1 0; mkSection 10 0 1 16; mkSection 28 15 1 116] /\
  main ex_not_idempotent = Ret (mkRun ex_short_then_decoy [Stripped 18]) /\
  main ex_short_then_decoy = Ret (mkRun (header ++ decoy_section) [Stripped 2]) /\
  ~ (forall data secs r,
       valid_magic data = true -> sections data = Some secs ->
       main data = Ret r ->
       exists r', main (written r) = Ret r' /\ written r' = written r).
Proof.
  assert (H1 : main ex_not_idempotent = Ret (mkRun ex_short_then_decoy [Stripped 18]))
    by (vm_compute; reflexivity).
  assert (H2 : main ex_short_then_decoy
               = Ret (mkRun (header ++ decoy_section) [Stripped 2]))
    by (vm_compute; reflexivity).
  repeat split; try assumption; try (vm_compute; reflexivity).
  intros H.
  destruct (H ex_not_idempotent _ _ eq_refl eq_refl H1) as (r' & Hr' & Hw).
  cbn [written] in *. rewrite H2 in Hr'. injection Hr' as <-.
  vm_compute in Hw. discriminate.
Qed.

(** * Names that are not valid UTF-8 *)

Lemma is_target_invalid_name (data : list byte) (s : section) (nl nll : N) :
  read_leb128 data (payload_start s) = Ret (nl, nll) ->
  valid_utf8 (slice data (payload_start s + nll) (payload_start s + nll + nl))
    = false ->
  is_target data s = false.
Proof.
  intros Hread Hinvalid. unfold is_target, name_of. rewrite Hread. cbn [bind].
  rewrite (invalid_utf8_never_target _ Hinvalid). apply andb_false_r.
Qed.

(** C9, as amended.  For a module with a valid magic whose sections' declared
    spans lie within the buffer and whose custom sections all have a
    name-length varint that ends within the buffer: a custom section
    whose name bytes are not valid UTF-8 does not make the run fail; it
    name decodes to text holding U+FFFD and is never taken for
    "target_features", its span is copied verbatim,
    and the sections before and after it are processed as usual. *)
Theorem invalid_utf8_name_is_kept
    (data : list byte) (before after : list section) (s : section) (nl nll : N) :
  valid_magic data = true ->
  sections data = Some (before ++ s :: after) ->
  forallb (name_readable data) (before ++ s :: after) = true ->
  is_custom s = true ->
  read_leb128 data (payload_start s) = Ret (nl, nll) ->
  valid_utf8 (slice data (payload_start s + nll) (payload_start s + nll + nl))
    = false ->
  In REPLACEMENT
     (decode_utf8_replace
        (slice data (payload_start s + nll) (payload_start s + nll + nl))) /\
  is_target data s = false /\
  exists r,
    main data = Ret r /\
    written r = slice data 0 8
                ++ concat (map (span data) (kept data before))
                ++ span data s
                ++ concat (map (span data) (kept data after)).
Proof.
  intros Hmagic Hsec Hnames Hcustom Hread Hinvalid.
  pose proof (is_target_invalid_name _ _ _ _ Hread Hinvalid) as Hkeep.
  split; [apply invalid_utf8_replaced, Hinvalid|].
  split; [exact Hkeep|]. eexists.
  split; [apply (main_framed _ _ Hmagic Hsec Hnames)|]. cbn [written].
  rewrite kept_app, kept_cons, Hkeep, map_app, concat_app.
  reflexivity.
Qed.

Lemma invalid_utf8_name_is_kept_witness :
  valid_magic ex_invalid_then_target = true /\
  sections ex_invalid_then_target
    = Some ([] ++ mkSection 8 0 1 2 :: [mkSection 12 0 1 16; mkSection 30 0 1 7]) /\
  valid_utf8 (slice ex_invalid_then_target 11 12) = false /\
  is_target ex_invalid_then_target (mkSection 8 0 1 2) = false /\
  exists r,
    main ex_invalid_then_target = Ret r /\
    written r = header ++ sec x00 x02 [x01; xff] ++ other_section.
Proof.
  split; [reflexivity|]. split; [reflexivity|]. split; [reflexivity|].
  destruct (invalid_utf8_name_is_kept ex_invalid_then_target []
              [mkSection 12 0 1 16; mkSection 30 0 1 7] (mkSection 8 0 1 2) 1 1)
    as (_ & Hk & r & Hr & Hw); try reflexivity.
  split; [exact Hk|]. exists r. split; [exact Hr | exact Hw].
Defined.

(** C9 fails as stated: the module below is framed within its buffer
    and holds a custom section whose name is the invalid byte FF; the
    run raises at the empty custom section that follows. *)
Lemma invalid_name_module_can_abort :
  valid_magic ex_invalid_name = true /\
  sections ex_invalid_name = Some [mkSection 8 0 1 2; mkSection 12 0 1 0] /\
  read_leb128 ex_invalid_name (payload_start (mkSection 8 0 1 2)) = Ret (1, 1) /\
  valid_utf8 (slice ex_invalid_name 11 12) = false /\
  main ex_invalid_name = Raise IndexError /\
  ~ (forall data secs s nl nll,
       valid_magic data = true -> sections data = Some secs -> In s secs ->
       is_custom s = true ->
       read_leb128 data (payload_start s) = Ret (nl, nll) ->
       valid_utf8 (slice data (payload_start s + nll) (payload_start s + nll + nl))
         = false ->
       exists r, main data = Ret r).
Proof.
  repeat split; try reflexivity. intros H.
  destruct (H ex_invalid_name _ (mkSection 8 0 1 2) 1 1 eq_refl eq_refl
              (or_introl eq_refl) eq_refl eq_refl eq_refl) as (r & Hr).
  discriminate.
Qed.

(** * The name read is not clamped to the payload *)

(** C10.  The same custom section with an empty payload is removed or
    kept depending on the section that follows it: the name length and
    the name bytes are read from beyond the section's end.  When such a
    section is the last one, the name-length read runs past the end of
    the buffer and the run raises. *)
Theorem name_read_reaches_past_payload :
  let s := mkSection 8 0 1 0 in
  sections ex_short_then_decoy = Some [s; mkSection 10 15 1 116] /\
  sections ex_short_then_type = Some [s; mkSection 10 1 1 2] /\
  span ex_short_then_decoy s = span ex_short_then_type s /\
  payload_start s = sec_end s /\
  read_leb128 ex_short_then_decoy (payload_start s) = Ret (15, 1) /\
  slice ex_short_then_decoy 11 26 = target_features_bytes /\
  sec_end s < 26 /\
  is_target ex_short_then_decoy s = true /\
  is_target ex_short_then_type s = false /\
  main ex_short_then_decoy = Ret (mkRun (header ++ decoy_section) [Stripped 2]) /\
  main ex_short_then_type = Ret (mkRun ex_short_then_type [WarningNotFound]) /\
  sections ex_empty_custom_last = Some [s] /\
  read_leb128 ex_empty_custom_last (payload_start s) = Raise IndexError /\
  main ex_empty_custom_last = Raise IndexError.
Proof. cbv zeta. repeat split; vm_compute; reflexivity. Qed.

(** * Further properties of the run *)

(** ** What one iteration does *)

Lemma main_body_effect (data : list byte) (st st' : state) :
  main_body data st = Ret st' ->
  pos st + 2 <= pos st' /\
  ((out st' = out st ++ slice data (pos st) (pos st') /\
    stripped st' = stripped st /\ stderr st' = stderr st) \/
   (out st' = out st /\ stripped st' = true /\
    stderr st' = stderr st ++ [Stripped (pos st' - pos st)])).
Proof.
  intros H. pose proof (main_body_advances _ _ _ H) as Hadv.
  split; [exact Hadv|]. unfold main_body in H.
  apply bind_Ret_inv in H as (id & _ & H).
  apply bind_Ret_inv in H as ([size l] & _ & H).
  destruct (id =? 0).
  - apply bind_Ret_inv in H as ([nl nll] & _ & H).
    destruct (str_eqb _ _); injection H as <-; cbn [pos out stripped stderr];
      [right | left]; auto.
  - injection H as <-. cbn [pos out stripped stderr]. left. auto.
Qed.

(** A run that returns ends in a state the loop reached, with the cursor
    at or past the end of the buffer. *)
Lemma run_from_final (data : list byte) (st st' : state) :
  reaches data st -> run_from data st = Ret st' ->
  reaches data st' /\ len data <= pos st'.
Proof.
  remember (N.to_nat (len data - pos st)) as k eqn:Hk.
  revert st Hk. induction k as [k IH] using lt_wf_ind. intros st Hk Hreach.
  rewrite run_from_unfold. destruct (pos st <? len data) eqn:Hlt.
  - apply N.ltb_lt in Hlt.
    destruct (main_body data st) as [st1| |] eqn:Hb; cbn [bind];
      try discriminate.
    pose proof (main_body_advances _ _ _ Hb) as Hadv.
    apply (IH (N.to_nat (len data - pos st1))); [lia | reflexivity |].
    eapply reaches_next; eassumption.
  - apply N.ltb_ge in Hlt. intros [= <-]. auto.
Qed.

Lemma main_Ret_final (data : list byte) (r : run) :
  main data = Ret r ->
  valid_magic data = true /\
  exists st,
    reaches data st /\ len data <= pos st /\
    written r = out st /\
    printed r = (if stripped st then stderr st
                 else stderr st ++ [WarningNotFound]).
Proof.
  rewrite main_run_from. destruct (valid_magic data); [|discriminate].
  intros H. apply bind_Ret_inv in H as (st & Hrun & [= <-]).
  split; [reflexivity|]. exists st.
  destruct (run_from_final _ _ _ (reaches_initial data) Hrun).
  auto.
Qed.

(** ** Invariants of the loop *)

Lemma firstn_split_slice (data : list byte) (a b : N) :
  a <= b ->
  firstn (N.to_nat b) data = firstn (N.to_nat a) data ++ slice data a b.
Proof.
  intros H. unfold slice.
  rewrite <- (firstn_skipn (N.to_nat a) data) at 1.
  rewrite firstn_app, length_firstn.
  destruct (Nat.le_gt_cases (length data) (N.to_nat a)) as [Hshort|Hlong].
  - rewrite (skipn_all2 data) by assumption. rewrite !firstn_nil, !app_nil_r.
    rewrite firstn_firstn. f_equal. lia.
  - rewrite firstn_firstn. f_equal; [f_equal; lia|]. f_equal. lia.
Qed.

Lemma subseq_refl {A : Type} (l : list A) : subseq l l.
Proof. induction l; constructor; assumption. Qed.

Lemma subseq_nil_l {A : Type} (l : list A) : subseq [] l.
Proof. induction l; constructor; assumption. Qed.

Lemma subseq_app {A : Type} (a b c d : list A) :
  subseq a b -> subseq c d -> subseq (a ++ c) (b ++ d).
Proof.
  intros Hab Hcd. induction Hab; simpl;
    [assumption | constructor; assumption | constructor; assumption].
Qed.

Lemma subseq_length {A : Type} (a b : list A) :
  subseq a b -> (length a <= length b)%nat.
Proof. induction 1; simpl; lia. Qed.

Lemma subseq_same_length {A : Type} (a b : list A) :
  subseq a b -> length a = length b -> a = b.
Proof.
  induction 1 as [|x a b H IH|x a b H IH]; simpl; intros Hlen.
  - reflexivity.
  - apply subseq_length in H. lia.
  - f_equal. apply IH. lia.
Qed.

Lemma reported_bytes_app (a b : list diag) :
  reported_bytes (a ++ b) = reported_bytes a + reported_bytes b.
Proof.
  induction a as [|[n|] a IH]; simpl reported_bytes; rewrite ?IH; lia.
Qed.

Lemma len_firstn_min (data : list byte) (p : N) :
  len (firstn (N.to_nat p) data) = N.min p (len data).
Proof. unfold len. rewrite length_firstn. lia. Qed.

Lemma reaches_invariant (data : list byte) (st : state) :
  reaches data st -> loop_invariant data st.
Proof.
  induction 1 as [|st st' Hreach IH Hlt Hbody].
  - unfold initial. constructor; cbn [pos out stripped stderr].
    + lia.
    + rewrite slice_0. apply firstn_firstn.
    + rewrite slice_0. apply subseq_refl.
    + intros _. apply slice_0.
    + discriminate.
    + tauto.
    + reflexivity.
    + rewrite slice_0, len_firstn_min. simpl reported_bytes. lia.
  - destruct IH as [Ipos Ihdr Isub Iun Ich Iflag Ilines Iacc].
    assert (Hsl : len (slice data (pos st) (pos st'))
                  = N.min (pos st') (len data) - pos st
                  \/ pos st' < pos st + 2).
    { left. unfold slice, len. rewrite length_firstn, length_skipn.
      unfold len in Hlt. lia. }
    destruct Hsl as [Hsl|Hsl];
      [|apply main_body_advances in Hbody; lia].
    pose proof (subseq_length _ _ Isub) as Hsublen.
    rewrite length_firstn in Hsublen.
    apply main_body_effect in Hbody
      as (Hadv & [(Hout & Hstr & Herr) | (Hout & Hstr & Herr)]).
    + pose proof (firstn_split_slice data (pos st) (pos st') ltac:(lia)) as Hsplit.
      constructor.
      * lia.
      * rewrite Hout.
        destruct (Nat.le_gt_cases 8 (length (out st))) as [Hlong|Hshort].
        -- rewrite firstn_app.
           replace (8 - length (out st))%nat with 0%nat by lia.
           rewrite firstn_0, app_nil_r. exact Ihdr.
        -- exfalso. apply (f_equal (@length byte)) in Ihdr.
           rewrite !length_firstn in Ihdr. unfold len in Hlt. lia.
      * rewrite Hout, Hsplit. apply subseq_app; [exact Isub | apply subseq_refl].
      * rewrite Hstr, Hout, Hsplit. intros Hs. rewrite (Iun Hs). reflexivity.
      * rewrite Hstr, Hout, len_app. intros Hs. specialize (Ich Hs). lia.
      * rewrite Hstr, Herr. exact Iflag.
      * rewrite Herr. exact Ilines.
      * rewrite Herr, Hout, len_app. lia.
    + pose proof (firstn_split_slice data (pos st) (pos st') ltac:(lia)) as Hsplit.
      constructor.
      * lia.
      * rewrite Hout. exact Ihdr.
      * rewrite Hout, Hsplit, <- (app_nil_r (out st)).
        apply subseq_app; [exact Isub | apply subseq_nil_l].
      * rewrite Hstr. discriminate.
      * rewrite Hout. intros _. unfold len in *. lia.
      * rewrite Hstr, Herr. split; [discriminate|].
        intros E. apply app_eq_nil in E as [_ E]. discriminate.
      * rewrite Herr, forallb_app, Ilines. reflexivity.
      * rewrite Herr, Hout, reported_bytes_app. simpl reported_bytes. lia.
Qed.

(** ** The magic check and the shortest inputs *)

Lemma short_input_bad_magic (data : list byte) :
  len data < 4 -> valid_magic data = false.
Proof.
  intros H. unfold valid_magic, bytes_eqb.
  destruct (list_eq_dec _ _ _) as [E|]; [|reflexivity].
  apply (f_equal (@length byte)) in E. rewrite slice_0, length_firstn in E.
  unfold len in H. change (length magic) with 4%nat in E. lia.
Qed.

(** X1.  [main] fails its assertion exactly when the first four bytes
    of the input are not the magic, which includes every input shorter
    than four bytes; the section loop never raises AssertionError, and a
    failed assertion leaves no output file. *)
Theorem assertion_fails_iff_bad_magic (data : list byte) :
  (main data = Raise AssertionError <-> valid_magic data = false) /\
  (len data < 4 -> main data = Raise AssertionError) /\
  (valid_magic data = false -> output_file data = None).
Proof.
  assert (Hbad : valid_magic data = false -> main data = Raise AssertionError).
  { intros H. rewrite main_run_from, H. reflexivity. }
  repeat split.
  - rewrite main_run_from. destruct (valid_magic data); [|reflexivity].
    destruct (run_from data (initial data)) as [st|e|] eqn:Hrun; cbn [bind];
      try discriminate.
    apply run_from_Raise in Hrun as ->. discriminate.
  - exact Hbad.
  - intros H. apply Hbad, short_input_bad_magic, H.
  - intros H. eapply output_file_Raise, Hbad, H.
Qed.

(** X2.  An input with the magic and at most eight bytes has no section
    to walk: it is written back unchanged, with the warning. *)
Theorem header_only_module_is_unchanged (data : list byte) :
  valid_magic data = true -> len data <= 8 ->
  main data = Ret (mkRun data [WarningNotFound]).
Proof.
  intros Hmagic Hlen. rewrite main_run_from, Hmagic.
  rewrite run_from_at_end by (simpl; lia).
  cbn [bind initial out stripped stderr app]. do 2 f_equal.
  rewrite slice_0. apply firstn_all2. unfold len in Hlen. lia.
Qed.

Lemma header_only_module_is_unchanged_witness :
  valid_magic magic = true /\ len magic <= 8 /\
  main magic = Ret (mkRun magic [WarningNotFound]).
Proof.
  split; [reflexivity|]. split; [discriminate|].
  apply (header_only_module_is_unchanged magic); [reflexivity | discriminate].
Defined.

(** X3.  Every iteration of the loop moves the cursor forward by at
    least two bytes (the id byte and at least one byte of size), so the
    loop ends: on every input [main] returns or raises IndexError or
    AssertionError. *)
Theorem main_always_finishes (data : list byte) :
  (forall st st', main_body data st = Ret st' -> pos st + 2 <= pos st') /\
  ((exists r, main data = Ret r) \/
   main data = Raise IndexError \/
   main data = Raise AssertionError).
Proof.
  split; [apply main_body_advances|].
  destruct (main data) as [r|e|] eqn:H.
  - left. eauto.
  - right. destruct e; auto.
  - now apply main_terminates in H.
Qed.

(** ** What a run that returns has done to the bytes *)

(** X4.  The run only deletes: the output is the input with some bytes
    left out, in the input's order, so it is never longer than the
    input; its first eight bytes are those of the input, and it passes
    the magic check again.  This holds for every input on which [main]
    returns, framed or not. *)
Theorem output_is_input_with_bytes_deleted (data : list byte) (r : run) :
  main data = Ret r ->
  subseq (written r) data /\
  len (written r) <= len data /\
  firstn 8 (written r) = firstn 8 data /\
  valid_magic (written r) = true.
Proof.
  intros H. apply main_Ret_final in H as (Hmagic & st & Hreach & Hend & -> & _).
  destruct (reaches_invariant _ _ Hreach) as [_ Ihdr Isub _ _ _ _ _].
  rewrite firstn_all2 in Isub by (unfold len in Hend; lia).
  repeat split.
  - exact Isub.
  - apply subseq_length in Isub. unfold len. lia.
  - exact Ihdr.
  - unfold valid_magic in *. rewrite slice_0 in *.
    replace (firstn (N.to_nat 4) (out st))
      with (firstn (N.to_nat 4) (firstn 8 (out st)))
      by (rewrite firstn_firstn; reflexivity).
    rewrite Ihdr, firstn_firstn. exact Hmagic.
Qed.

Lemma output_is_input_with_bytes_deleted_witness :
  exists r,
    main ex_multi = Ret r /\
    subseq (written r) ex_multi /\
    len (written r) <= len ex_multi /\
    firstn 8 (written r) = firstn 8 ex_multi /\
    valid_magic (written r) = true.
Proof.
  eexists. split; [vm_compute; reflexivity|].
  apply (output_is_input_with_bytes_deleted ex_multi). vm_compute. reflexivity.
Defined.

(** X5.  The warning is printed exactly when the output is byte for
    byte the input, and then it is the only line; otherwise every line
    is a "Stripped" line, there is at least one, and the output is
    strictly shorter than the input.  This holds for every input on
    which [main] returns. *)
Theorem warning_iff_output_unchanged (data : list byte) (r : run) :
  main data = Ret r ->
  (In WarningNotFound (printed r) <-> written r = data) /\
  (written r = data -> printed r = [WarningNotFound]) /\
  (written r <> data ->
   printed r <> [] /\ forallb is_stripped_line (printed r) = true /\
   len (written r) < len data).
Proof.
  intros H. apply main_Ret_final in H as (_ & st & Hreach & Hend & -> & ->).
  destruct (reaches_invariant _ _ Hreach) as [_ _ _ Iun Ich Iflag Ilines _].
  assert (Hall : firstn (N.to_nat (pos st)) data = data)
    by (apply firstn_all2; unfold len in Hend; lia).
  destruct (stripped st) eqn:Hs.
  - specialize (Ich eq_refl).
    assert (Hne : out st <> data).
    { intros E. rewrite E in Ich. lia. }
    assert (Hnowarn : ~ In WarningNotFound (stderr st)).
    { intros Hin. rewrite forallb_forall in Ilines.
      specialize (Ilines _ Hin). discriminate. }
    split; [tauto|]. split; [tauto|]. intros _.
    split; [|split; [exact Ilines | lia]].
    intros E. destruct Iflag as [_ Iflag]. specialize (Iflag E). discriminate.
  - destruct Iflag as [Iflag _]. rewrite (Iflag eq_refl), (Iun eq_refl), Hall.
    cbn [app]. split; [|split; [reflexivity | tauto]].
    split; [reflexivity | intros _; left; reflexivity].
Qed.

Lemma warning_iff_output_unchanged_witness :
  exists r,
    main ex_truncated = Ret r /\
    (In WarningNotFound (printed r) <-> written r = ex_truncated) /\
    (written r = ex_truncated -> printed r = [WarningNotFound]) /\
    (written r <> ex_truncated ->
     printed r <> [] /\ forallb is_stripped_line (printed r) = true /\
     len (written r) < len ex_truncated).
Proof.
  eexists. split; [vm_compute; reflexivity|].
  apply (warning_iff_output_unchanged ex_truncated). vm_compute. reflexivity.
Defined.

(** X6.  Every byte of the input is either copied to the output or
    counted in a "Stripped" line: the input is no longer than the output
    plus the byte counts printed.  (The count printed for a section is
    its declared span, so the total can exceed the bytes removed when
    the last section is cut short by the end of the buffer.) *)
Theorem every_byte_is_copied_or_reported (data : list byte) (r : run) :
  main data = Ret r ->
  len data <= len (written r) + reported_bytes (printed r).
Proof.
  intros H. apply main_Ret_final in H as (_ & st & Hreach & Hend & -> & ->).
  destruct (reaches_invariant _ _ Hreach) as [_ _ _ _ _ _ _ Iacc].
  destruct (stripped st); rewrite ?reported_bytes_app; simpl reported_bytes; lia.
Qed.

Lemma every_byte_is_copied_or_reported_witness :
  exists r,
    main ex_multi = Ret r /\
    len ex_multi <= len (written r) + reported_bytes (printed r).
Proof.
  eexists. split; [vm_compute; reflexivity|].
  apply (every_byte_is_copied_or_reported ex_multi). vm_compute. reflexivity.
Defined.

(** ** More on the varint reader *)

(** X7.  [read_leb128] raises IndexError exactly when no byte from
    [offset] to the end of the buffer has bit 0x80 clear; in particular
    it raises whenever [offset] is at or past the end, and in every
    other case it returns. *)
Theorem read_leb128_fails_iff_unterminated (data : list byte) (offset : N) :
  (read_leb128 data offset = Raise IndexError <-> unterminated data offset = true) /\
  (len data <= offset -> read_leb128 data offset = Raise IndexError) /\
  (unterminated data offset = false ->
   exists v n, read_leb128 data offset = Ret (v, n)).
Proof.
  assert (Hiff : read_leb128 data offset = Raise IndexError
                 <-> unterminated data offset = true).
  { split; [|apply read_leb128_unterminated].
    rewrite read_leb128_scan. apply leb_scan_Raise_unterminated. }
  split; [exact Hiff|]. split.
  - intros H. apply Hiff. unfold unterminated.
    rewrite skipn_all2 by (unfold len in H; lia). reflexivity.
  - intros H. destruct (read_leb128 data offset) as [[v n]|e|] eqn:E.
    + eauto.
    + pose proof (read_leb128_Raise _ _ _ E) as ->.
      destruct Hiff as [Hi _]. rewrite (Hi eq_refl) in H. discriminate.
    + now apply read_leb128_terminates in E.
Qed.

(** X8.  A successful read is determined by the bytes it consumed:
    those bytes decode to the same value and length wherever they sit,
    whatever comes before and after them. *)
Theorem read_leb128_depends_on_consumed_bytes
    (data : list byte) (offset v n : N) :
  read_leb128 data offset = Ret (v, n) ->
  forall pre post : list byte,
    read_leb128 (pre ++ slice data offset (offset + n) ++ post) (len pre)
    = Ret (v, n).
Proof.
  intros H pre post. rewrite read_leb128_scan in *.
  rewrite skipn_len_app. apply leb_scan_app.
  apply leb_scan_firstn in H. rewrite N.sub_0_r in H.
  unfold slice. replace (offset + n - offset) with n by lia. exact H.
Qed.

Lemma read_leb128_depends_on_consumed_bytes_witness :
  read_leb128 ex_varint 0 = Ret (624485, 3) /\
  forall pre post : list byte,
    read_leb128 (pre ++ slice ex_varint 0 (0 + 3) ++ post) (len pre)
    = Ret (624485, 3).
Proof.
  split; [reflexivity|].
  apply (read_leb128_depends_on_consumed_bytes ex_varint 0 624485 3).
  reflexivity.
Defined.

Lemma N_lor_lt_pow2 (a b k : N) : a < 2 ^ k -> b < 2 ^ k -> N.lor a b < 2 ^ k.
Proof.
  intros Ha Hb.
  destruct (N.eq_dec a 0) as [->|Ha0]; [rewrite N.lor_0_l; exact Hb|].
  destruct (N.eq_dec b 0) as [->|Hb0]; [rewrite N.lor_0_r; exact Ha|].
  assert (Hab : N.lor a b <> 0).
  { intros E. apply N.lor_eq_0_iff in E. tauto. }
  apply N.log2_lt_pow2; [lia|]. rewrite N.log2_lor.
  apply N.log2_lt_pow2 in Ha, Hb; lia.
Qed.

Lemma low7_shifted_bound (c s : N) :
  N.shiftl (N.land c 0x7F) s < 2 ^ (s + 7).
Proof.
  rewrite N.shiftl_mul_pow2. change 0x7F with (N.ones 7).
  rewrite N.land_ones, N.pow_add_r.
  assert (H7 : c mod 2 ^ 7 < 2 ^ 7) by (apply N.mod_lt; discriminate).
  assert (Hs : 0 < 2 ^ s) by (apply N.neq_0_lt_0, N.pow_nonzero; discriminate).
  rewrite (N.mul_comm (2 ^ s)). apply N.mul_lt_mono_pos_r; assumption.
Qed.

Lemma leb_scan_bound (bs : list byte) :
  forall result shift n v m : N,
  result < 2 ^ shift ->
  leb_scan bs result shift n = Ret (v, m) ->
  v < 2 ^ (shift + 7 * (m - n)).
Proof.
  induction bs as [|b bs IH]; intros result shift n v m Hr; cbn [leb_scan];
    [discriminate|].
  assert (Hacc : N.lor result (N.shiftl (N.land (Byte.to_N b) 127) shift)
                 < 2 ^ (shift + 7)).
  { apply N_lor_lt_pow2; [|apply low7_shifted_bound].
    eapply N.lt_le_trans; [exact Hr|]. apply N.pow_le_mono_r; lia. }
  destruct (N.land (Byte.to_N b) 128 =? 0).
  - intros [= <- <-]. replace (shift + 7 * (n + 1 - n)) with (shift + 7) by lia.
    exact Hacc.
  - intros H. pose proof (leb_scan_consumed _ _ _ _ _ _ H) as [Hm _].
    apply (IH _ _ _ _ _ Hacc) in H.
    replace (shift + 7 * (m - n)) with (shift + 7 + 7 * (m - (n + 1))) by lia.
    exact H.
Qed.

(** X9.  A value read from [n] bytes is below 2^(7n): each byte
    contributes seven bits and no more. *)
Theorem read_leb128_value_bound (data : list byte) (offset v n : N) :
  read_leb128 data offset = Ret (v, n) -> v < 2 ^ (7 * n).
Proof.
  rewrite read_leb128_scan. intros H.
  apply leb_scan_bound in H; [|simpl; lia].
  rewrite N.sub_0_r in H. exact H.
Qed.

Lemma read_leb128_value_bound_witness :
  read_leb128 ex_varint 0 = Ret (624485, 3) /\ 624485 < 2 ^ (7 * 3).
Proof.
  split; [reflexivity|].
  apply (read_leb128_value_bound ex_varint 0 624485 3). reflexivity.
Defined.

(** ** Where a run can fail *)

Lemma run_from_Raise_at (data : list byte) (st : state) (e : exn) :
  reaches data st -> run_from data st = Raise e ->
  exists st',
    reaches data st' /\ pos st' < len data /\ main_body data st' = Raise e.
Proof.
  remember (N.to_nat (len data - pos st)) as k eqn:Hk.
  revert st Hk. induction k as [k IH] using lt_wf_ind. intros st Hk Hreach.
  rewrite run_from_unfold. destruct (pos st <? len data) eqn:Hlt;
    [|discriminate].
  apply N.ltb_lt in Hlt.
  destruct (main_body data st) as [st1| |] eqn:Hb; cbn [bind];
    try discriminate.
  - pose proof (main_body_advances _ _ _ Hb) as Hadv.
    apply (IH (N.to_nat (len data - pos st1))); [lia | reflexivity |].
    eapply reaches_next; eassumption.
  - intros [= <-]. eauto.
Qed.

Lemma main_body_Raise_cases (data : list byte) (st : state) (e : exn) :
  pos st < len data -> main_body data st = Raise e ->
  unterminated data (pos st + 1) = true \/
  (index data (pos st) = Ret 0 /\
   exists size l,
     read_leb128 data (pos st + 1) = Ret (size, l) /\
     unterminated data (pos st + 1 + l) = true).
Proof.
  intros Hlt. unfold main_body.
  destruct (index_lt_Ret _ _ Hlt) as (id & Hid & _). rewrite Hid. cbn [bind].
  destruct (read_leb128 data (pos st + 1)) as [[size l]|e1|] eqn:Hsz; cbn [bind].
  - destruct (N.eqb_spec id 0) as [->|Hne]; [|discriminate].
    destruct (read_leb128 data (pos st + 1 + l)) as [[nl nll]|e2|] eqn:Hnm;
      cbn [bind].
    + destruct (str_eqb _ _); discriminate.
    + intros _. right. split; [reflexivity|]. exists size, l.
      split; [reflexivity|].
      rewrite read_leb128_scan in Hnm.
      eapply leb_scan_Raise_unterminated, Hnm.
    + discriminate.
  - intros _. left. rewrite read_leb128_scan in Hsz.
    eapply leb_scan_Raise_unterminated, Hsz.
  - discriminate.
Qed.

(** X10.  On an input with the magic, [main] raises IndexError exactly
    when the loop reaches a section whose size varint, or (for a custom
    section) whose name-length varint, has no terminating byte before
    the end of the buffer.  Nothing else makes the walk fail. *)
Theorem main_fails_iff_a_varint_is_unterminated (data : list byte) :
  valid_magic data = true ->
  (main data = Raise IndexError <->
   exists st,
     reaches data st /\ pos st < len data /\
     (unterminated data (pos st + 1) = true \/
      (index data (pos st) = Ret 0 /\
       exists size l,
         read_leb128 data (pos st + 1) = Ret (size, l) /\
         unterminated data (pos st + 1 + l) = true))).
Proof.
  intros Hmagic. split.
  - rewrite main_run_from, Hmagic.
    destruct (run_from data (initial data)) as [st|e|] eqn:Hrun; cbn [bind];
      try discriminate.
    intros _.
    destruct (run_from_Raise_at _ _ _ (reaches_initial data) Hrun)
      as (st' & Hreach & Hlt & Hbody).
    exists st'. split; [exact Hreach|]. split; [exact Hlt|].
    eapply main_body_Raise_cases; eassumption.
  - intros (st & Hreach & Hlt & Hcase).
    eapply main_body_raises_main with (e := IndexError); try eassumption.
    destruct Hcase as [Hun | (Hid & size & l & Hsz & Hun)].
    + apply main_body_size_unreadable; [exact Hlt|].
      apply read_leb128_unterminated, Hun.
    + eapply main_body_name_unreadable; try eassumption.
      apply read_leb128_unterminated, Hun.
Qed.

Lemma main_fails_iff_a_varint_is_unterminated_witness :
  valid_magic ex_empty_custom_last = true /\
  (main ex_empty_custom_last = Raise IndexError <->
   exists st,
     reaches ex_empty_custom_last st /\ pos st < len ex_empty_custom_last /\
     (unterminated ex_empty_custom_last (pos st + 1) = true \/
      (index ex_empty_custom_last (pos st) = Ret 0 /\
       exists size l,
         read_leb128 ex_empty_custom_last (pos st + 1) = Ret (size, l) /\
         unterminated ex_empty_custom_last (pos st + 1 + l) = true))).
Proof.
  split; [reflexivity|].
  apply (main_fails_iff_a_varint_is_unterminated ex_empty_custom_last).
  reflexivity.
Defined.

(** ** The output as a module *)

Lemma relocate_spans (d : list byte) (secs : list section) :
  forall pre : list byte,
  Forall (fun s => len (span d s) = span_len s) secs ->
  map (span (pre ++ concat (map (span d) secs))) (relocate (len pre) secs)
  = map (span d) secs.
Proof.
  induction secs as [|s rest IH]; intros pre Hall; [reflexivity|].
  inversion Hall as [|? ? Hlen Hrest]; subst.
  cbn [map concat relocate]. f_equal.
  - unfold span at 1, sec_end, payload_start.
    cbn [sec_start size_len payload_size].
    apply (slice_skipn_app _ _ (concat (map (span d) rest))).
    + apply skipn_len_app.
    + unfold span_len in Hlen. lia.
  - specialize (IH (pre ++ span d s) Hrest).
    rewrite <- app_assoc, len_app, Hlen in IH. exact IH.
Qed.

Lemma relocate_ids (p : N) (secs : list section) :
  map sec_id (relocate p secs) = map sec_id secs /\
  map payload_size (relocate p secs) = map payload_size secs.
Proof.
  revert p. induction secs as [|s rest IH]; intros p; [split; reflexivity|].
  cbn [map relocate sec_id payload_size]. destruct (IH (p + span_len s)) as [-> ->].
  split; reflexivity.
Qed.

(** X11.  For a module with the magic whose sections lie within the
    buffer and whose custom sections have their name field inside their
    payload, the output is again such a module: its sections are the
    kept sections of the input, with the same ids, sizes and bytes, laid
    out back to back after the header, and none of them is named
    "target_features". *)
Theorem output_is_a_framed_module (data : list byte) (secs : list section) :
  valid_magic data = true ->
  sections data = Some secs ->
  forallb (name_in_payload data) secs = true ->
  exists r secs',
    main data = Ret r /\
    valid_magic (written r) = true /\
    sections (written r) = Some secs' /\
    map sec_id secs' = map sec_id (kept data secs) /\
    map payload_size secs' = map payload_size (kept data secs) /\
    map (span (written r)) secs' = map (span data) (kept data secs) /\
    forallb (name_in_payload (written r)) secs' = true /\
    existsb (is_target (written r)) secs' = false.
Proof.
  intros Hmagic Hsec Hnames.
  pose proof (name_in_payload_readable _ _ Hnames) as Hread.
  pose proof (sections_header _ _ Hsec) as [H8 _].
  pose proof (sections_from_tile _ _ _ _ Hsec) as (_ & _ & Hall).
  assert (Hlen8 : len (slice data 0 8) = 8) by (rewrite len_slice; lia).
  destruct (sections_relocate data secs _ _ (slice data 0 8) Hsec Hnames)
    as (Hsec' & Hnames' & Hnone').
  pose proof (relocate_spans data (kept data secs) (slice data 0 8)
                (Forall_kept _ _ Hall)) as Hspans.
  cbv zeta in *. rewrite Hlen8 in *.
  exists (mkRun (slice data 0 8 ++ concat (map (span data) (kept data secs)))
                (expected_lines data secs)),
         (relocate 8 (kept data secs)).
  cbn [written].
  split; [apply (main_framed _ _ Hmagic Hsec Hread)|].
  split; [rewrite valid_magic_output by assumption; exact Hmagic|].
  split.
  { apply (sections_fuel_irrelevant _ _ _ Hsec'). }
  destruct (relocate_ids 8 (kept data secs)) as [Hids Hsizes].
  repeat split; assumption.
Qed.

Lemma output_is_a_framed_module_witness :
  valid_magic ex_multi = true /\
  exists r secs',
    main ex_multi = Ret r /\
    valid_magic (written r) = true /\
    sections (written r) = Some secs' /\
    map sec_id secs' = [0; 1] /\
    map payload_size secs' = [7; 2].
Proof.
  split; [reflexivity|].
  destruct (output_is_a_framed_module ex_multi
              [mkSection 8 0 1 16; mkSection 26 0 1 7; mkSection 35 0 1 16;
               mkSection 53 1 1 2; mkSection 57 0 1 16])
    as (r & secs' & Hr & Hm & Hs & Hid & Hsz & _); try reflexivity.
  exists r, secs'. repeat split; assumption.
Defined.

(** ** Which sections are removed *)

(** X12.  At a custom section whose size and name length can be read,
    the section is removed exactly when the bytes of its name are the
    fifteen ASCII bytes of "target_features"; decoding with replacement
    never makes other bytes compare equal.  Otherwise the section's
    span is appended to the output. *)
Theorem custom_section_removed_iff_exact_name
    (data : list byte) (st : state) (size l nl nll : N) :
  index data (pos st) = Ret 0 ->
  read_leb128 data (pos st + 1) = Ret (size, l) ->
  read_leb128 data (pos st + 1 + l) = Ret (nl, nll) ->
  let section_end := pos st + 1 + l + size in
  let name_start := pos st + 1 + l + nll in
  let name_bytes := slice data name_start (name_start + nl) in
  (name_bytes = target_features_bytes ->
   main_body data st
   = Ret (mkState section_end (out st) true
                  (stderr st ++ [Stripped (section_end - pos st)]))) /\
  (name_bytes <> target_features_bytes ->
   main_body data st
   = Ret (mkState section_end (out st ++ slice data (pos st) section_end)
                  (stripped st) (stderr st))) /\
  (name_bytes = target_features_bytes -> nl = 15 \/ len data < name_start + nl).
Proof.
  intros Hid Hsz Hnm. cbv zeta. unfold main_body.
  rewrite Hid. cbn [bind]. rewrite Hsz. cbn [bind N.eqb]. rewrite Hnm.
  cbn [bind]. repeat split.
  - intros E. apply decode_is_target in E. rewrite E. reflexivity.
  - intros E.
    destruct (str_eqb _ target_features) eqn:Hcmp; [|reflexivity].
    apply decode_is_target in Hcmp. contradiction.
  - intros E. apply (f_equal len) in E.
    destruct (N.le_gt_cases (pos st + 1 + l + nll + nl) (len data)) as [Hin|Hout];
      [left | right; lia].
    rewrite len_slice in E by lia.
    change (len target_features_bytes) with 15 in E. lia.
Qed.

Lemma custom_section_removed_iff_exact_name_witness :
  index (header ++ tf_section) 8 = Ret 0 /\
  read_leb128 (header ++ tf_section) 9 = Ret (16, 1) /\
  read_leb128 (header ++ tf_section) 10 = Ret (15, 1) /\
  main_body (header ++ tf_section) (initial (header ++ tf_section))
  = Ret (mkState 26 header true [Stripped 18]).
Proof.
  split; [reflexivity|]. split; [reflexivity|]. split; [reflexivity|].
  apply (custom_section_removed_iff_exact_name (header ++ tf_section)
           (initial (header ++ tf_section)) 16 1 15 1
           eq_refl eq_refl eq_refl).
  reflexivity.
Defined.

(** X13.  A module with the magic whose sections lie within the buffer
    and none of which is a custom section is written back unchanged,
    with the warning, whatever its payloads hold. *)
Theorem module_without_custom_sections_is_unchanged
    (data : list byte) (secs : list section) :
  valid_magic data = true ->
  sections data = Some secs ->
  forallb (fun s => negb (sec_id s =? 0)) secs = true ->
  main data = Ret (mkRun data [WarningNotFound]).
Proof.
  intros Hmagic Hsec Hids.
  apply (main_nothing_to_strip _ _ Hmagic Hsec).
  - rewrite forallb_forall in *. intros s Hs. specialize (Hids s Hs).
    unfold name_readable, is_custom. rewrite Hids. reflexivity.
  - destruct (existsb (is_target data) secs) eqn:E; [|reflexivity].
    apply existsb_exists in E as (s & Hs & Ht).
    rewrite forallb_forall in Hids. specialize (Hids s Hs).
    unfold is_target, is_custom in Ht.
    apply negb_true_iff in Hids. rewrite Hids in Ht. discriminate.
Qed.

Lemma module_without_custom_sections_is_unchanged_witness :
  valid_magic ex_no_custom = true /\
  sections ex_no_custom
    = Some [mkSection 8 1 1 2; mkSection 12 2 1 18; mkSection 32 3 1 0] /\
  main ex_no_custom = Ret (mkRun ex_no_custom [WarningNotFound]).
Proof.
  split; [reflexivity|]. split; [reflexivity|].
  apply (module_without_custom_sections_is_unchanged ex_no_custom
           [mkSection 8 1 1 2; mkSection 12 2 1 18; mkSection 32 3 1 0]);
    reflexivity.
Defined.
